(** * mdpls: live markdown preview

    A shallow embedding of the preview pipeline of [src/asd.js]:

    - the server side (language-server process): the document manager,
      the process-wide [currentFocus], the three document handlers and
      the WebSocket [connection] handler that render and send updates;
    - the client side (the page served on port 8081): the [ws.onmessage]
      handler, which reconciles [#mdText] against the received HTML with
      morphdom and then upgrades graphviz blocks.

    Strings are [string], JavaScript maps are [gmap], [undefined] is
    [None].  Handlers are state-passing functions that also return the
    trace of what they did (renderer calls, sends, DOM mutations,
    scroll calls), so that statements about "what was sent" or "what
    was mutated" are statements about that trace. *)

From Stdlib Require Import Ascii String List Bool Arith Lia QArith.
From stdpp Require Import base option list strings gmap fin_maps.

Local Open Scope string_scope.
Local Open Scope list_scope.

(** ** Server side *)

Module Server.

(** The object handed to [JSON.stringify] before [send].  A field that
    the object literal does not have is [None]. *)
Record message := Message {
  action : string;
  text : string;
  uri : option string
}.

(** [change.document]: the URI and [getText()] of a text document. *)
Record TextDocument := Doc {
  doc_uri : string;
  getText : string
}.

Definition client := nat.

(** What a handler does, in program order. *)
Inductive effect :=
  | Render (src : option string)      (* md.render(src) was called *)
  | Send (ws : client) (m : message)  (* ws.send(JSON.stringify(m)) *)
  | Throw (err : string)              (* an exception left the handler *)
  | Log (line : string).              (* console.log *)

(** Process-wide state: the synced documents of the [TextDocuments]
    manager, the settings cache, [currentFocus] and [wss.clients]. *)
Record server := ServerState {
  documents : gmap string string;
  documentSettings : gset string;
  currentFocus : string;
  clients : list client
}.

(** State at start-up: [currentFocus] is the empty string, nothing is
    open, nobody is connected. *)
Definition initial : server :=
  {| documents := ∅; documentSettings := ∅; currentFocus := EmptyString; clients := [] |}.

Definition set_focus (u : string) (st : server) : server :=
  {| documents := documents st; documentSettings := documentSettings st;
     currentFocus := u; clients := clients st |}.

Definition set_documents (d : gmap string string) (st : server) : server :=
  {| documents := d; documentSettings := documentSettings st;
     currentFocus := currentFocus st; clients := clients st |}.

Definition set_settings (s : gset string) (st : server) : server :=
  {| documents := documents st; documentSettings := s;
     currentFocus := currentFocus st; clients := clients st |}.

Definition set_clients (cs : list client) (st : server) : server :=
  {| documents := documents st; documentSettings := documentSettings st;
     currentFocus := currentFocus st; clients := cs |}.

Section Dispatcher.

(** The markdown renderer ([require('markdown-it')()]) on a string:
    an external, pure and total function. *)
Variable md_render : string -> string.

(** [md.render(v)] for a JavaScript value that is a string or
    [undefined]: markdown-it rejects a non-string input with
    "Input data should be a String". *)
Definition render_call (v : option string) : string + string :=
  match v with
  | Some src => inl (md_render src)
  | None => inr "Input data should be a String"
  end.

(** One iteration of [wss.clients.forEach]: render, build the
    three-field object, send (lines 440-446 and 453-459). *)
Definition send_update (d : TextDocument) (ws : client) : list effect :=
  [ Render (Some (getText d));
    Send ws {| action := "update"; text := md_render (getText d);
               uri := Some (doc_uri d) |} ].

Definition broadcast (d : TextDocument) (cs : list client) : list effect :=
  concat (map (send_update d) cs).

(** [documents.onDidOpen] (lines 437-448). *)
Definition onDidOpen (st : server) (d : TextDocument) : server * list effect :=
  let st' := set_focus (doc_uri d) st in
  (st', broadcast d (clients st')).

(** [documents.onDidChangeContent] (lines 450-461). *)
Definition onDidChangeContent (st : server) (d : TextDocument)
  : server * list effect :=
  let st' := set_focus (doc_uri d) st in
  (st', broadcast d (clients st')).

(** [documents.onDidClose] (lines 168-170): only the settings cache is
    touched. *)
Definition onDidClose (st : server) (d : TextDocument) : server * list effect :=
  (set_settings (documentSettings st ∖ {[ doc_uri d ]}) st, []).

(** [wss.on("connection")] (lines 423-433).  The [ws] library has
    already put the socket into [wss.clients].  The argument of
    [md.render] is [documents.get(currentFocus)?.getText()]; when the
    renderer throws, nothing is sent. *)
Definition on_connection (st : server) (ws : client) : server * list effect :=
  let st' := set_clients (clients st ++ [ws]) st in
  let arg := documents st' !! currentFocus st' in
  match render_call arg with
  | inl html =>
      (st', [ Render arg;
              Send ws {| action := "update"; text := html; uri := None |} ])
  | inr err => (st', [ Render arg; Throw err ])
  end.

(** [ws.on("message")]: the server only logs what a viewer sends,
    behind the words of the format string. *)
Definition on_message (st : server) (data : string) : server * list effect :=
  (st, [ Log (String.append "received: " data) ]).

(** A closed socket leaves [wss.clients]. *)
Definition on_close (st : server) (ws : client) : server :=
  set_clients (filter (fun c => c ≠ ws) (clients st)) st.

(** What reaches the process from outside. *)
Inductive event :=
  | DidOpen (u : string) (t : string)
  | DidChange (u : string) (t : string)
  | DidClose (u : string)
  | Connect (ws : client)
  | Received (ws : client) (data : string)
  | Disconnect (ws : client).

(** Modelled from the spec: the [TextDocuments] manager of
    vscode-languageserver behind [documents.listen(connection)]
    (line 263), which is not under src/.  It stores the text on open,
    replaces it on change and removes it on close (spec 4.1), and then
    fires the handlers.  As the comment at lines 172-173 records, the
    change-content event "is emitted when the text document first
    opened or when its content has changed", so an open fires
    [onDidOpen] and then [onDidChangeContent].  Changes and closes of
    a document that is not open are ignored. *)
Definition listen (st : server) (e : event) : server * list effect :=
  match e with
  | DidOpen u t =>
      let d := Doc u t in
      let st0 := set_documents (<[u := t]> (documents st)) st in
      let '(st1, o1) := onDidOpen st0 d in
      let '(st2, o2) := onDidChangeContent st1 d in
      (st2, o1 ++ o2)
  | DidChange u t =>
      match documents st !! u with
      | Some _ =>
          onDidChangeContent
            (set_documents (<[u := t]> (documents st)) st) (Doc u t)
      | None => (st, [])
      end
  | DidClose u =>
      match documents st !! u with
      | Some t => onDidClose (set_documents (delete u (documents st)) st) (Doc u t)
      | None => (st, [])
      end
  | Connect ws => on_connection st ws
  | Received _ data => on_message st data
  | Disconnect ws => (on_close st ws, [])
  end.

(** The event loop: events are handled to completion in arrival
    order; the result is the final state and one trace per event. *)
Fixpoint run (st : server) (es : list event) : server * list (list effect) :=
  match es with
  | [] => (st, [])
  | e :: es' =>
      let '(st1, o) := listen st e in
      let '(st2, os) := run st1 es' in
      (st2, o :: os)
  end.

(** The messages of a trace, with their addressee. *)
Fixpoint sends (o : list effect) : list (client * message) :=
  match o with
  | [] => []
  | Send ws m :: o' => (ws, m) :: sends o'
  | _ :: o' => sends o'
  end.

(** The arguments the renderer was called with. *)
Fixpoint render_args (o : list effect) : list (option string) :=
  match o with
  | [] => []
  | Render v :: o' => v :: render_args o'
  | _ :: o' => render_args o'
  end.

(** The messages a given viewer was sent. *)
Definition messages_to (ws : client) (o : list effect) : list message :=
  map snd (filter (fun p => fst p = ws) (sends o)).

(** The three-field update for a document. *)
Definition update_of (d : TextDocument) : message :=
  {| action := "update"; text := md_render (getText d); uri := Some (doc_uri d) |}.

End Dispatcher.

End Server.

(** ** The document object model of the page *)

Module Dom.

(** A parsed HTML fragment: what the tree builder produces, before any
    node object exists.  Attributes form a map (their order is not
    observable through [isEqualNode]). *)
#[local] Unset Elimination Schemes.
Inductive html :=
  | HText (data : string)
  | HComment (data : string)
  | HElem (tag : string) (attrs : gmap string string) (kids : list html).

(** A DOM node.  [nid] is the identity of the node object (the "node
    reference" of JavaScript): two nodes can be equal as trees and
    still be different objects. *)
Inductive node :=
  | Text (nid : nat) (nodeValue : string)
  | Comment (nid : nat) (nodeValue : string)
  | Element (nid : nat) (nodeName : string)
            (attributes : gmap string string) (childNodes : list node).
#[local] Set Elimination Schemes.

Definition node_id (n : node) : nat :=
  match n with
  | Text i _ | Comment i _ | Element i _ _ _ => i
  end.

Definition children (n : node) : list node :=
  match n with
  | Element _ _ _ ks => ks
  | _ => []
  end.

Definition attrs_of (n : node) : gmap string string :=
  match n with
  | Element _ _ a _ => a
  | _ => ∅
  end.

(** [el.hasAttribute(name)] *)
Definition hasAttribute (n : node) (name : string) : bool :=
  bool_decide (is_Some (attrs_of n !! name)).

(** [el.setAttribute(name, value)] *)
Definition setAttribute (n : node) (name value : string) : node :=
  match n with
  | Element i t a ks => Element i t (<[name := value]> a) ks
  | _ => n
  end.

(** A state-threading map: the children of a node are created left to
    right, each taking the next free identities. *)
Section Thread.
Context {A B : Type} (f : A -> nat -> B * nat).
Fixpoint thread (l : list A) (next : nat) : list B * nat :=
  match l with
  | [] => ([], next)
  | x :: l' =>
      let '(y, n1) := f x next in
      let '(ys, n2) := thread l' n1 in
      (y :: ys, n2)
  end.
End Thread.

(** Node objects for a parsed tree, numbered in document order from
    [next]. *)
Fixpoint create (h : html) (next : nat) : node * nat :=
  match h with
  | HText s => (Text next s, S next)
  | HComment s => (Comment next s, S next)
  | HElem t a ks =>
      let '(ks', n') := thread create ks (S next) in
      (Element next t a ks', n')
  end.

(** The tree of a node, its identity forgotten. *)
Fixpoint erase (n : node) : html :=
  match n with
  | Text _ s => HText s
  | Comment _ s => HComment s
  | Element _ t a ks => HElem t a (map erase ks)
  end.

(** [a.isEqualNode(b)]: same node type, same name or data, same
    attributes, and children that are pairwise equal. *)
Section Pairwise.
Context {A : Type} (eqb : A -> A -> bool).
Fixpoint pairwise (l1 l2 : list A) : bool :=
  match l1, l2 with
  | [], [] => true
  | x :: l1', y :: l2' => eqb x y && pairwise l1' l2'
  | _, _ => false
  end.
End Pairwise.

Fixpoint isEqualNode (a b : node) : bool :=
  match a, b with
  | Text _ s, Text _ t => bool_decide (s = t)
  | Comment _ s, Comment _ t => bool_decide (s = t)
  | Element _ n1 a1 k1, Element _ n2 a2 k2 =>
      bool_decide (n1 = n2) && bool_decide (a1 = a2)
      && pairwise isEqualNode k1 k2
  | _, _ => false
  end.

(** [node.textContent] *)
Fixpoint textContent (n : node) : string :=
  match n with
  | Text _ s => s
  | Comment _ _ => EmptyString
  | Element _ _ _ ks => String.concat EmptyString (map textContent ks)
  end.

(** Whether some element of the forest carries the attribute. *)
Fixpoint carries (name : string) (n : node) : bool :=
  match n with
  | Element _ _ a ks =>
      bool_decide (is_Some (a !! name)) || existsb (carries name) ks
  | _ => false
  end.

(** Induction over trees, with the children as a [Forall]. *)
Section Induction.
Variable P : node -> Prop.
Hypothesis Htext : forall i s, P (Text i s).
Hypothesis Hcomment : forall i s, P (Comment i s).
Hypothesis Helement : forall i t a ks, Forall P ks -> P (Element i t a ks).

Fixpoint node_ind (n : node) : P n :=
  match n with
  | Text i s => Htext i s
  | Comment i s => Hcomment i s
  | Element i t a ks =>
      Helement i t a ks
        ((fix all (l : list node) : Forall P l :=
            match l with
            | [] => @List.Forall_nil _ P
            | k :: l' => @List.Forall_cons node P k l' (node_ind k) (all l')
            end) ks)
  end.
End Induction.

Section HtmlInduction.
Variable P : html -> Prop.
Hypothesis Htext : forall s, P (HText s).
Hypothesis Hcomment : forall s, P (HComment s).
Hypothesis Helement : forall t a ks, Forall P ks -> P (HElem t a ks).

Fixpoint html_ind (h : html) : P h :=
  match h with
  | HText s => Htext s
  | HComment s => Hcomment s
  | HElem t a ks =>
      Helement t a ks
        ((fix all (l : list html) : Forall P l :=
            match l with
            | [] => @List.Forall_nil _ P
            | k :: l' => @List.Forall_cons html P k l' (html_ind k) (all l')
            end) ks)
  end.
End HtmlInduction.

(** The node itself, without its children. *)
Definition shell (n : node) : node :=
  match n with
  | Element i t a _ => Element i t a []
  | _ => n
  end.

(** The descendant at a path of child indices. *)
Fixpoint descend (p : list nat) (n : node) : option node :=
  match p with
  | [] => Some n
  | i :: p' =>
      match children n !! i with
      | Some k => descend p' k
      | None => None
      end
  end.

End Dom.

(** ** morphdom *)

(** The page loads morphdom 2.6.1 from a CDN and calls it with
    [getNodeKey: () => null], so that no node is keyed.

    Modelled from the spec: morphdom itself, which is not under src/
    (spec 4.3: matching is keyless and positional, by node type and
    tag; matched nodes are updated in place, nodes found only in the old
    tree are removed, nodes found only in the new tree are added, and
    with [childrenOnly] the root is morphed in its children only).  The
    definitions follow the library's [morphAttrs], [morphEl],
    [morphChildren] and [handleNodeAdded] on the keyless path.  Form
    controls, whose properties the library also synchronises, are not
    modelled. *)

Module Morphdom.
Import Dom.

(** What a reconciliation does, in program order. *)
Inductive effect :=
  | SetAttribute (el : nat) (name value : string)
  | RemoveAttribute (el : nat) (name : string)
  | SetNodeValue (n : nat) (value : string)
  | RemoveChild (parent child : nat)
  | AppendChild (parent child : nat)
  | TargetSetAttribute (el : nat) (name value : string)
      (* setAttribute on a node of the parsed target, which is not in
         the document *)
  | ScrollIntoView (el : nat).

(** The options object.  [onBeforeElUpdated fromEl toEl] yields the
    attributes of [toEl] after the callback ran, the callback's result
    and what it did. *)
Record options := Options {
  childrenOnly : bool;
  onBeforeElUpdated : node -> node -> gmap string string * bool * list effect;
  onElUpdated : node -> list effect;
  onNodeAdded : node -> list effect
}.

(** Options whose [onBeforeElUpdated] declines the update of a pair
    only when the two have equal children. *)
Definition declines_equal (opts : options) : Prop :=
  forall f t ta e,
    onBeforeElUpdated opts f t = (ta, false, e) ->
    pairwise isEqualNode (children f) (children t) = true.

(** Nodes that the children walk pairs up: elements of the same name,
    or character data of the same node type. *)
Definition compatible (fromNode toNode : node) : bool :=
  match fromNode, toNode with
  | Element _ n1 _ _, Element _ n2 _ _ => bool_decide (n1 = n2)
  | Text _ _, Text _ _ => true
  | Comment _ _, Comment _ _ => true
  | _, _ => false
  end.

(** [morphAttrs]: every attribute of the target whose value differs is
    set on the original element, every attribute the target lacks is
    removed; afterwards the element has the target's attributes. *)
Definition morphAttrs (el : nat) (fromAttrs toAttrs : gmap string string)
  : list effect :=
  map (fun p => SetAttribute el p.1 p.2)
      (filter (fun p => fromAttrs !! p.1 ≠ Some p.2) (map_to_list toAttrs))
  ++ map (fun p => RemoveAttribute el p.1)
      (filter (fun p => toAttrs !! p.1 = None) (map_to_list fromAttrs)).

(** Text and comment nodes: [nodeValue] is overwritten when it
    differs. *)
Definition morphCharacterData (fromNode toNode : node) : node * list effect :=
  match fromNode, toNode with
  | Text i s, Text _ t =>
      if bool_decide (s = t) then (fromNode, []) else (Text i t, [SetNodeValue i t])
  | Comment i s, Comment _ t =>
      if bool_decide (s = t) then (fromNode, []) else (Comment i t, [SetNodeValue i t])
  | _, _ => (fromNode, [])
  end.

(** The inner loop of [morphChildren]: original children that are not
    compatible with the current target child are passed over (and will
    be removed) until a compatible one is found. *)
Fixpoint find_compatible (toNode : node) (fs : list node)
  : list node * option (node * list node) :=
  match fs with
  | [] => ([], None)
  | f :: fs' =>
      if compatible f toNode then ([], Some (f, fs'))
      else let '(skipped, found) := find_compatible toNode fs' in
           (f :: skipped, found)
  end.

(** The children walk pairs original and target by position for as
    long as the nodes in front pair up: the children at the indices up
    to [i] are compatible one by one. *)
Fixpoint paired_upto (i : nat) (fs ts : list node) : bool :=
  match fs, ts with
  | f :: fs', t :: ts' =>
      compatible f t
      && match i with
         | 0 => true
         | S i' => paired_upto i' fs' ts'
         end
  | _, _ => false
  end.

(** A path along which the walk pairs original and target by position,
    at every level. *)
Fixpoint aligned (p : list nat) (f t : node) : bool :=
  match p with
  | [] => true
  | i :: p' =>
      paired_upto i (children f) (children t)
      && match children f !! i, children t !! i with
         | Some f', Some t' => aligned p' f' t'
         | _, _ => false
         end
  end.

Section Walk.
Variable opts : options.

(** [handleNodeAdded]: [onNodeAdded] for the node and then for each
    of its descendants. *)
Fixpoint handleNodeAdded (n : node) : list effect :=
  onNodeAdded opts n ++
  match n with
  | Element _ _ _ ks => concat (map handleNodeAdded ks)
  | _ => []
  end.

Section Children.
(** The morph of a pair of elements, [parent] being the element
    whose children are walked. *)
Variable morph_pair : node -> node -> node * list effect.
Variable parent : nat.

Definition removeNode (f : node) : effect := RemoveChild parent (node_id f).

(** A matched pair: elements are morphed, character data is
    overwritten. *)
Definition morph_matched (t f : node) : node * list effect :=
  match t with
  | Element _ _ _ _ => morph_pair t f
  | _ => morphCharacterData f t
  end.

(** [morphChildren]: the outer loop over the target's children.
    The result lists the children of the original element
    afterwards. *)
Fixpoint morphChildren (ts fs : list node) {struct ts}
  : list node * list effect :=
  match ts with
  | [] => ([], map removeNode fs)
  | t :: ts' =>
      let '(skipped, found) := find_compatible t fs in
      match found with
      | Some (f, fs') =>
          let '(n, e1) := morph_matched t f in
          let '(r, e2) := morphChildren ts' fs' in
          (n :: r, map removeNode skipped ++ e1 ++ e2)
      | None =>
          let '(r, e2) := morphChildren ts' [] in
          (t :: r,
           map removeNode skipped
           ++ AppendChild parent (node_id t) :: handleNodeAdded t ++ e2)
      end
  end.
End Children.

(** [morphEl(fromEl, toEl)] for a pair of elements, not
    [childrenOnly]. *)
Fixpoint morphEl (toEl fromEl : node) {struct toEl} : node * list effect :=
  match toEl, fromEl with
  | Element _ _ _ tks, Element fid fname fattrs fks =>
      let '(tattrs, go, e0) := onBeforeElUpdated opts fromEl toEl in
      if go then
        let e1 := morphAttrs fid fattrs tattrs in
        let e2 := onElUpdated opts (Element fid fname tattrs fks) in
        let '(ks, e3) := morphChildren morphEl fid tks fks in
        (Element fid fname tattrs ks, e0 ++ e1 ++ e2 ++ e3)
      else (fromEl, e0)
  | _, _ => (fromEl, [])
  end.

(** [morphdom(fromNode, toNode, options)].  [fresh] is the identity
    of the element the library creates when root and target are
    elements of different names. *)
Definition morphdom (fresh : nat) (fromNode toNode : node) : node * list effect :=
  if childrenOnly opts then
    match fromNode with
    | Element fid fname fattrs fks =>
        let '(ks, e) := morphChildren morphEl fid (children toNode) fks in
        (Element fid fname fattrs ks, e)
    | _ => (fromNode, [])
    end
  else
    match fromNode, toNode with
    | Element _ n1 _ fks, Element _ n2 _ _ =>
        if bool_decide (n1 = n2) then morphEl toNode fromNode
        else morphEl toNode (Element fresh n2 ∅ fks)
    | Text _ _, Text _ _ | Comment _ _, Comment _ _ =>
        morphCharacterData fromNode toNode
    | _, _ => (toNode, [])
    end.

End Walk.

End Morphdom.

(** ** The browser's fragment parser *)

(** morphdom turns the string it is given into a node with the
    browser's HTML parser ([template.innerHTML]).

    Modelled from the spec: the HTML parser of the browser, which is
    not under src/ (spec 4.3: the fragment is "opaque content to diff
    against", never an error).  The model is a tokenizer (data, tags
    with attributes, comments) feeding a stack of open elements: a
    start tag opens an element unless it is void, an end tag closes the
    nearest open element of that name together with everything opened
    inside it and is ignored when there is none, and the end of input
    closes whatever is open, and behind a [plaintext] start tag all is
    text.  Character references are kept verbatim; the other special
    modes of the parser (tables, raw text elements, implied end tags)
    are not modelled. *)

Module Html.
Import Dom.

Definition code (c : ascii) : nat := nat_of_ascii c.

Definition is_space (c : ascii) : bool :=
  Nat.eqb (code c) 9 || Nat.eqb (code c) 10 || Nat.eqb (code c) 12
  || Nat.eqb (code c) 13 || Nat.eqb (code c) 32.

Definition is_upper (c : ascii) : bool :=
  Nat.leb 65 (code c) && Nat.leb (code c) 90.
Definition is_lower (c : ascii) : bool :=
  Nat.leb 97 (code c) && Nat.leb (code c) 122.
Definition is_alpha (c : ascii) : bool := is_upper c || is_lower c.

Definition lower (c : ascii) : ascii :=
  if is_upper c then ascii_of_nat (code c + 32) else c.

Definition lt_sign : ascii := Eval cbv in ascii_of_nat 60.
Definition gt_sign : ascii := Eval cbv in ascii_of_nat 62.
Definition slash : ascii := Eval cbv in ascii_of_nat 47.
Definition equals : ascii := Eval cbv in ascii_of_nat 61.
Definition dquote : ascii := Eval cbv in ascii_of_nat 34.
Definition squote : ascii := Eval cbv in ascii_of_nat 39.
Definition bang : ascii := Eval cbv in ascii_of_nat 33.
Definition question : ascii := Eval cbv in ascii_of_nat 63.
Definition dash : ascii := Eval cbv in ascii_of_nat 45.

Definition single (c : ascii) : string := String c EmptyString.
Definition snoc (s : string) (c : ascii) : string := String.append s (single c).

Inductive token :=
  | TChar (c : ascii)
  | TComment (data : string)
  | TStart (name : string) (attrs : gmap string string)
  | TEnd (name : string).

(** A tag being read. *)
Record tag := Tag {
  closing : bool;
  tname : string;
  tattrs : gmap string string
}.

(** A repeated attribute is dropped: the first one wins. *)
Definition add_attr (k v : string) (t : tag) : tag :=
  match tattrs t !! k with
  | Some _ => t
  | None => Tag (closing t) (tname t) (<[k := v]> (tattrs t))
  end.

Definition emit_tag (t : tag) : token :=
  if closing t then TEnd (tname t) else TStart (tname t) (tattrs t).

Inductive tstate :=
  | Data
  | PlainText
  | TagOpen
  | EndTagOpen
  | TagName (t : tag)
  | BeforeAttrName (t : tag)
  | AttrName (t : tag) (k : string)
  | AfterAttrName (t : tag) (k : string)
  | BeforeAttrValue (t : tag) (k : string)
  | AttrValue (t : tag) (k : string) (quote : option ascii) (v : string)
  | SelfClosing (t : tag)
  | MarkupDecl
  | MarkupDeclDash
  | InComment (data : string)
  | CommentEndDash (data : string)
  | CommentEnd (data : string)
  | BogusComment (data : string).

(** The state behind a finished tag: after a [plaintext] start tag
    nothing is markup any more. *)
Definition after_tag (t : tag) : tstate :=
  if negb (closing t) && bool_decide (tname t = "plaintext") then PlainText
  else Data.

Definition finish_tag (t : tag) : tstate * list token :=
  (after_tag t, [emit_tag t]).

Definition before_attr_name (t : tag) (c : ascii) : tstate * list token :=
  if is_space c then (BeforeAttrName t, [])
  else if Ascii.eqb c slash then (SelfClosing t, [])
  else if Ascii.eqb c gt_sign then finish_tag t
  else (AttrName t (single (lower c)), []).

(** One character of input. *)
Definition step (s : tstate) (c : ascii) : tstate * list token :=
  match s with
  | Data =>
      if Ascii.eqb c lt_sign then (TagOpen, []) else (Data, [TChar c])
  | PlainText => (PlainText, [TChar c])
  | TagOpen =>
      if Ascii.eqb c bang then (MarkupDecl, [])
      else if Ascii.eqb c slash then (EndTagOpen, [])
      else if is_alpha c then (TagName (Tag false (single (lower c)) ∅), [])
      else if Ascii.eqb c question then (BogusComment (single c), [])
      else if Ascii.eqb c lt_sign then (TagOpen, [TChar lt_sign])
      else (Data, [TChar lt_sign; TChar c])
  | EndTagOpen =>
      if is_alpha c then (TagName (Tag true (single (lower c)) ∅), [])
      else if Ascii.eqb c gt_sign then (Data, [])
      else (BogusComment (single c), [])
  | TagName t =>
      if is_space c then (BeforeAttrName t, [])
      else if Ascii.eqb c slash then (SelfClosing t, [])
      else if Ascii.eqb c gt_sign then finish_tag t
      else (TagName (Tag (closing t) (snoc (tname t) (lower c)) (tattrs t)), [])
  | BeforeAttrName t => before_attr_name t c
  | AttrName t k =>
      if is_space c then (AfterAttrName t k, [])
      else if Ascii.eqb c slash then (SelfClosing (add_attr k EmptyString t), [])
      else if Ascii.eqb c equals then (BeforeAttrValue t k, [])
      else if Ascii.eqb c gt_sign then finish_tag (add_attr k EmptyString t)
      else (AttrName t (snoc k (lower c)), [])
  | AfterAttrName t k =>
      if is_space c then (AfterAttrName t k, [])
      else if Ascii.eqb c equals then (BeforeAttrValue t k, [])
      else before_attr_name (add_attr k EmptyString t) c
  | BeforeAttrValue t k =>
      if is_space c then (BeforeAttrValue t k, [])
      else if Ascii.eqb c dquote || Ascii.eqb c squote
      then (AttrValue t k (Some c) EmptyString, [])
      else if Ascii.eqb c gt_sign then finish_tag (add_attr k EmptyString t)
      else (AttrValue t k None (single c), [])
  | AttrValue t k (Some q) v =>
      if Ascii.eqb c q then (BeforeAttrName (add_attr k v t), [])
      else (AttrValue t k (Some q) (snoc v c), [])
  | AttrValue t k None v =>
      if is_space c then (BeforeAttrName (add_attr k v t), [])
      else if Ascii.eqb c gt_sign then finish_tag (add_attr k v t)
      else (AttrValue t k None (snoc v c), [])
  | SelfClosing t =>
      if Ascii.eqb c gt_sign then finish_tag t else before_attr_name t c
  | MarkupDecl =>
      if Ascii.eqb c dash then (MarkupDeclDash, [])
      else if Ascii.eqb c gt_sign then (Data, [TComment EmptyString])
      else (BogusComment (single c), [])
  | MarkupDeclDash =>
      if Ascii.eqb c dash then (InComment EmptyString, [])
      else if Ascii.eqb c gt_sign then (Data, [TComment (single dash)])
      else (BogusComment (snoc (single dash) c), [])
  | InComment d =>
      if Ascii.eqb c dash then (CommentEndDash d, []) else (InComment (snoc d c), [])
  | CommentEndDash d =>
      if Ascii.eqb c dash then (CommentEnd d, [])
      else (InComment (snoc (snoc d dash) c), [])
  | CommentEnd d =>
      if Ascii.eqb c gt_sign then (Data, [TComment d])
      else if Ascii.eqb c dash then (CommentEnd (snoc d dash), [])
      else (InComment (snoc (snoc (snoc d dash) dash) c), [])
  | BogusComment d =>
      if Ascii.eqb c gt_sign then (Data, [TComment d]) else (BogusComment (snoc d c), [])
  end.

(** End of input: an unfinished tag is dropped, an unfinished comment
    is kept. *)
Definition flush (s : tstate) : list token :=
  match s with
  | TagOpen => [TChar lt_sign]
  | EndTagOpen => [TChar lt_sign; TChar slash]
  | MarkupDecl => [TComment EmptyString]
  | MarkupDeclDash => [TComment (single dash)]
  | InComment d | CommentEndDash d | CommentEnd d | BogusComment d => [TComment d]
  | _ => []
  end.

(** An open element: its name, its attributes and the children it has
    so far, last one first. *)
Record frame := Frame {
  fname : string;
  fattrs : gmap string string;
  fkids : list html
}.

(** The stack of open elements, innermost first, and the children of
    the fragment itself, last one first. *)
Record builder := Builder {
  open_elements : list frame;
  top_kids : list html
}.

Definition void_elements : list string :=
  ["area"; "base"; "br"; "col"; "embed"; "hr"; "img"; "input"; "link";
   "meta"; "param"; "source"; "track"; "wbr"].

Definition is_void (name : string) : bool := bool_decide (name ∈ void_elements).

(** Apply [g] to the children of the current node. *)
Definition on_current (g : list html -> list html) (b : builder) : builder :=
  match open_elements b with
  | f :: fs => Builder (Frame (fname f) (fattrs f) (g (fkids f)) :: fs) (top_kids b)
  | [] => Builder [] (g (top_kids b))
  end.

Definition add_child (h : html) : builder -> builder := on_current (cons h).

(** A character joins the text node that ends the current node, or
    starts a new one. *)
Definition append_char (c : ascii) (kids : list html) : list html :=
  match kids with
  | HText s :: ks => HText (snoc s c) :: ks
  | _ => HText (single c) :: kids
  end.

Definition close_frame (f : frame) : html :=
  HElem (fname f) (fattrs f) (rev (fkids f)).

(** Close the innermost open element. *)
Definition pop (b : builder) : builder :=
  match open_elements b with
  | f :: fs => add_child (close_frame f) (Builder fs (top_kids b))
  | [] => b
  end.

Fixpoint index_of (name : string) (fs : list frame) : option nat :=
  match fs with
  | [] => None
  | f :: fs' =>
      if bool_decide (fname f = name) then Some 0
      else S <$> index_of name fs'
  end.

Definition insert_token (b : builder) (t : token) : builder :=
  match t with
  | TChar c => on_current (append_char c) b
  | TComment d => add_child (HComment d) b
  | TStart name attrs =>
      if is_void name then add_child (HElem name attrs []) b
      else Builder (Frame name attrs [] :: open_elements b) (top_kids b)
  | TEnd name =>
      match index_of name (open_elements b) with
      | Some i => Nat.iter (S i) pop b
      | None => b
      end
  end.

Definition parser : Type := tstate * builder.

Definition feed (p : parser) (c : ascii) : parser :=
  let '(s, toks) := step p.1 c in
  (s, fold_left insert_token toks p.2).

Fixpoint feed_all (p : parser) (s : string) : parser :=
  match s with
  | EmptyString => p
  | String c s' => feed_all (feed p c) s'
  end.

Definition finish (p : parser) : list html :=
  let b := fold_left insert_token (flush p.1) p.2 in
  rev (top_kids (Nat.iter (length (open_elements b)) pop b)).

Definition start : parser := (Data, Builder [] []).

(** The children of the fragment a string parses to. *)
Definition parse_fragment (s : string) : list html := finish (feed_all start s).

(** Whether the string is balanced markup: it ends outside of any tag
    or comment, every end tag in it closes the innermost element that
    it has open itself, and no element is left open at its end. *)
Definition closes_own (b : builder) (t : token) : bool :=
  match t with
  | TEnd name => bool_decide (index_of name (open_elements b) = Some 0)
  | _ => true
  end.

Fixpoint tokens_own (b : builder) (toks : list token) : bool :=
  match toks with
  | [] => true
  | t :: toks' => closes_own b t && tokens_own (insert_token b t) toks'
  end.

Fixpoint balanced_from (p : parser) (s : string) : bool :=
  match s with
  | EmptyString =>
      match p.1 with
      | Data => bool_decide (open_elements p.2 = [])
      | _ => false
      end
  | String c s' =>
      tokens_own p.2 (step p.1 c).2 && balanced_from (feed p c) s'
  end.

Definition balanced (s : string) : bool := balanced_from start s.

(** The same builder, everything it holds being inside one more open
    [div]. *)
Definition wrap (b : builder) : builder :=
  Builder (open_elements b ++ [Frame "div" ∅ (top_kids b)]) [].

(** The builder holds at least one node, open or finished. *)
Definition nonempty (b : builder) : Prop :=
  open_elements b <> [] \/ top_kids b <> [].

End Html.

(** ** Client side: the page's [ws.onmessage] *)

Module Client.
Import Dom Morphdom Html.

(** [onBeforeElUpdated] (lines 347-372): an open original keeps its
    target open; a pair that is then equal is skipped, any other
    original is scrolled into view (centred, not animated) and
    morphed. *)
Definition onBeforeElUpdated (fromEl toEl : node)
  : gmap string string * bool * list effect :=
  let '(toEl', e0) :=
    if hasAttribute fromEl "open"
    then (setAttribute toEl "open" "true",
          [TargetSetAttribute (node_id toEl) "open" "true"])
    else (toEl, []) in
  if isEqualNode fromEl toEl' then (attrs_of toEl', false, e0)
  else (attrs_of toEl', true, e0 ++ [ScrollIntoView (node_id fromEl)]).

(** [onElUpdated] (lines 373-377): everything in it is commented
    out. *)
Definition onElUpdated (el : node) : list effect := [].

(** [onNodeAdded] (lines 378-386): only elements have
    [scrollIntoView]. *)
Definition onNodeAdded (el : node) : list effect :=
  match el with
  | Element i _ _ _ => [ScrollIntoView i]
  | _ => []
  end.

(** The options object of lines 345-388. *)
Definition page_options : options :=
  {| childrenOnly := true;
     Morphdom.onBeforeElUpdated := onBeforeElUpdated;
     Morphdom.onElUpdated := onElUpdated;
     Morphdom.onNodeAdded := onNodeAdded |}.

(** The string handed to morphdom (line 344): the received text
    between two opening [div] tags. *)
Definition target (text : string) : string :=
  String.append "<div>" (String.append text "<div>").

(** morphdom's [toElement]: the first node of the parsed fragment, or
    [undefined] when there is none.  (The library trims the string
    first, which leaves a string that begins and ends with a tag as it
    is.) *)
Definition toElement (str : string) (next : nat) : option (node * nat) :=
  match parse_fragment str with
  | h :: _ => Some (create h next)
  | [] => None
  end.

(** One viewer: the element [#mdText] and the next free node
    identity. *)
Record viewer := Viewer {
  mdText : node;
  next_id : nat
}.

(** The call of morphdom on [#mdText] with the wrapped string.  [None]
    stands for the [TypeError] that morphdom raises on an [undefined]
    target. *)
Definition reconcile_with (opts : options) (v : viewer) (html : string)
  : option (viewer * list effect) :=
  match toElement (target html) (next_id v) with
  | Some (toNode, next) =>
      let '(root, e) := morphdom opts next (mdText v) toNode in
      Some (Viewer root (S next), e)
  | None => None
  end.

(** Lines 338-389: the reconciliation of the served page, on
    [received.text]. *)
Definition reconcile (v : viewer) (text : string) : option (viewer * list effect) :=
  reconcile_with page_options v text.

(** The earlier page script (lines 15-46) renders on the client and
    hands morphdom the same wrapping, around [md.render(received.text)];
    its [onBeforeElUpdated] does not scroll, its [onElUpdated] does, and
    it has no [onNodeAdded]. *)
Definition fragment_onBeforeElUpdated (fromEl toEl : node)
  : gmap string string * bool * list effect :=
  let '(toEl', e0) :=
    if hasAttribute fromEl "open"
    then (setAttribute toEl "open" "true",
          [TargetSetAttribute (node_id toEl) "open" "true"])
    else (toEl, []) in
  (attrs_of toEl', negb (isEqualNode fromEl toEl'), e0).

Definition fragment_options : options :=
  {| childrenOnly := true;
     Morphdom.onBeforeElUpdated := fragment_onBeforeElUpdated;
     Morphdom.onElUpdated := fun el => [ScrollIntoView (node_id el)];
     Morphdom.onNodeAdded := fun _ => [] |}.

Definition fragment_reconcile (md_render : string -> string) (v : viewer)
    (text : string) : option (viewer * list effect) :=
  reconcile_with fragment_options v (md_render text).

(** The trace of a second reconciliation with the same text. *)
Definition second_trace (v : viewer) (text : string) : option (list effect) :=
  match reconcile v text with
  | Some (v1, _) =>
      match reconcile v1 text with
      | Some (_, e2) => Some e2
      | None => None
      end
  | None => None
  end.

(** What a matched pair settles to: when the morphed original carries
    no [open], it is, as a tree, the target. *)
Definition settles (t : node) : Prop :=
  forall f n e,
    compatible f t = true ->
    morph_matched (morphEl page_options) t f = (n, e) ->
    carries "open" n = false -> erase n = erase t.

(** Reconciling with a sequence of messages, one after the other. *)
Fixpoint reconcile_all (v : viewer) (texts : list string) : option viewer :=
  match texts with
  | [] => Some v
  | t :: texts' =>
      match reconcile v t with
      | Some (v', _) => reconcile_all v' texts'
      | None => None
      end
  end.

(** What is left of a trace when the scroll calls, or everything but
    the scroll calls and the writes to the parsed target, are taken
    out. *)
Definition is_scroll (e : effect) : bool :=
  match e with ScrollIntoView _ => true | _ => false end.

Definition is_mutation (e : effect) : bool :=
  match e with
  | ScrollIntoView _ | TargetSetAttribute _ _ _ => false
  | _ => true
  end.

Definition scrolls (o : list effect) : list effect := List.filter is_scroll o.
Definition mutations (o : list effect) : list effect := List.filter is_mutation o.

(** *** The diagram upgrade (lines 391-402) *)

(** How a call of [viz.renderSVGElement] ends: it throws, or it
    returns a promise that is later fulfilled with an element or
    rejected. *)
Inductive outcome :=
  | Throws (err : string)
  | Resolves (svg : html)
  | Rejects (err : string).

Inductive upgrade_effect :=
  | ConsoleError (err : string)        (* the [catch] block ran *)
  | UnhandledRejection (err : string)  (* a promise nobody handles *)
  | Replaced (block newEl : nat).      (* block.parentNode.replaceWith(newEl) *)

(** The space-separated tokens of a [class] attribute. *)
Fixpoint class_tokens (cur : string) (s : string) : list string :=
  match s with
  | EmptyString => if bool_decide (cur = EmptyString) then [] else [cur]
  | String c s' =>
      if is_space c
      then (if bool_decide (cur = EmptyString) then [] else [cur])
           ++ class_tokens EmptyString s'
      else class_tokens (snoc cur c) s'
  end.

(** A string with its capitals A to Z in lower case. *)
Fixpoint lowercase (s : string) : string :=
  match s with
  | EmptyString => EmptyString
  | String c s' => String (lower c) (lowercase s')
  end.

(** The served page has no doctype (line 274), so the document is in
    quirks mode, where class names are compared without regard to the
    case of the letters A to Z. *)
Definition has_class (name : string) (n : node) : bool :=
  match attrs_of n !! "class" with
  | Some s =>
      bool_decide (lowercase name ∈ map lowercase (class_tokens EmptyString s))
  | None => false
  end.

Fixpoint with_class (name : string) (n : node) : list node :=
  (if has_class name n then [n] else []) ++
  match n with
  | Element _ _ _ ks => flat_map (with_class name) ks
  | _ => []
  end.

(** [root.getElementsByClassName(name)]: the descendants of the root
    with that class, in document order. *)
Definition getElementsByClassName (name : string) (root : node) : list node :=
  flat_map (with_class name) (children root).

(** A promise returned by the renderer, with the element it was
    requested for. *)
Record pending := Pending {
  element : nat;
  result : outcome
}.

(** [element.parentNode.replaceWith(newEl)] for an element whose parent
    is below the root, as the [pre] around a code block is.  An element
    that is itself a child of the root is not covered: there the root
    would leave the document, of which the viewer records nothing but
    the root. *)
Fixpoint replace_parent (target : nat) (newEl : node) (n : node) : node :=
  match n with
  | Element i t a ks =>
      Element i t a
        (map (fun k =>
                if existsb (fun g => Nat.eqb (node_id g) target) (children k)
                then newEl else replace_parent target newEl k) ks)
  | _ => n
  end.

Section Upgrade.
(** [new window.Viz()] and its [renderSVGElement], from viz.js. *)
Variable renderSVGElement : string -> outcome.

(** The [for] loop inside [try]: a call that throws leaves the loop
    and is logged by the [catch]; every other call yields a promise
    with a [then] callback and no rejection handler. *)
Fixpoint request (els : list node) : list pending * list upgrade_effect :=
  match els with
  | [] => ([], [])
  | el :: rest =>
      match renderSVGElement (textContent el) with
      | Throws err => ([], [ConsoleError err])
      | r =>
          let '(ps, o) := request rest in
          (Pending (node_id el) r :: ps, o)
      end
  end.

(** The synchronous part of the upgrade after a reconciliation. *)
Definition upgrade (v : viewer) : list pending * list upgrade_effect :=
  request (getElementsByClassName "language-graphviz" (mdText v)).

(** A promise settles: a fulfilled one runs the [then] callback
    (lines 395-398), a rejected one has no handler. *)
Definition settle (v : viewer) (p : pending) : viewer * list upgrade_effect :=
  match result p with
  | Resolves svg =>
      let '(newEl, next) := create svg (next_id v) in
      let newEl' := setAttribute newEl "width" "100%" in
      (Viewer (replace_parent (element p) newEl' (mdText v)) next,
       [Replaced (element p) (node_id newEl')])
  | Rejects err => (v, [UnhandledRejection err])
  | Throws _ => (v, [])
  end.

Fixpoint settle_all (v : viewer) (ps : list pending)
  : viewer * list upgrade_effect :=
  match ps with
  | [] => (v, [])
  | p :: ps' =>
      let '(v1, o1) := settle v p in
      let '(v2, o2) := settle_all v1 ps' in
      (v2, o1 ++ o2)
  end.

(** [ws.onmessage] (lines 330-404), promises settling in the order
    they were made. *)
Definition onmessage (v : viewer) (text : string)
  : option (viewer * list effect * list upgrade_effect) :=
  match reconcile v text with
  | Some (v1, e) =>
      let '(ps, o1) := upgrade v1 in
      let '(v2, o2) := settle_all v1 ps in
      Some (v2, e, o1 ++ o2)
  | None => None
  end.
End Upgrade.

(** A stand-in for viz.js in the examples: the promise for the source
    "bad" is rejected, any other source is drawn. *)
Definition render_sample (src : string) : outcome :=
  if bool_decide (src = "bad") then Rejects "syntax error"
  else Resolves (HElem "svg" ∅ []).

(** A page on which the reader has opened a [details] element inside
    a quotation. *)
Definition opened_page : viewer :=
  Viewer
    (Element 0 "div" ∅
       [Element 1 "blockquote" ∅
          [Element 2 "details" (<["open" := EmptyString]> ∅) [Text 3 "y"]]])
    4.

(** The line break between the tags of lines 313 and 314. *)
Definition line_break : string :=
  Eval cbv in String (ascii_of_nat 10) EmptyString.

(** The page as served (lines 313-314): [#mdText] holds one text node,
    the line break between its tags. *)
Definition mdText0 : node :=
  Element 0 "div" (<["id" := "mdText"]> (<["class" := "markdown-body"]> ∅))
    [Text 1 line_break].

Definition viewer0 : viewer := Viewer mdText0 2.

End Client.

(** ** The language server: capabilities, settings, validation, completion *)

Module Lsp.

(** [params.capabilities], as far as [onInitialize] reads it (lines
    74-88).  A field that the client left out is [None]. *)
Record WorkspaceClientCapabilities := WorkspaceCaps {
  configuration : option bool;
  workspaceFolders : option bool
}.

Record PublishDiagnosticsClientCapabilities := PublishCaps {
  relatedInformation : option bool
}.

Record TextDocumentClientCapabilities := TextDocumentCaps {
  publishDiagnostics : option PublishDiagnosticsClientCapabilities
}.

Record ClientCapabilities := ClientCaps {
  workspace : option WorkspaceClientCapabilities;
  textDocument : option TextDocumentClientCapabilities
}.

(** [!!x] for a boolean field that may be missing. *)
Definition truthy (x : option bool) : bool := default false x.

Inductive TextDocumentSyncKind := SyncNone | SyncFull | Incremental.

(** [result.capabilities] (lines 90-105): [workspace] is only there
    when it was assigned. *)
Record ServerCapabilities := ServerCaps {
  textDocumentSync : TextDocumentSyncKind;
  resolveProvider : bool;
  workspaceFolders_supported : option bool
}.

(** A JavaScript number, as far as [<] tells numbers apart: a finite
    number is a rational. *)
Inductive number :=
  | Finite (q : Q)
  | PlusInfinity
  | MinusInfinity
  | NaN.

(** A whole number. *)
Definition whole (n : nat) : number := Finite (inject_Z (Z.of_nat n)).

(** [problems < limit] for the counter of line 184, a whole number:
    no number is below [NaN]. *)
Definition below (problems : nat) (limit : number) : bool :=
  match limit with
  | Finite q => negb (Qle_bool q (inject_Z (Z.of_nat problems)))
  | PlusInfinity => true
  | MinusInfinity | NaN => false
  end.

(** The example settings (lines 125-133), as the validator reads
    them.  The settings come from the client, so the type of line 126
    is not checked: [maxNumberOfProblems] is the field as [<] reads it,
    converted to a number, which is [NaN] when the field is missing. *)
Record ExampleSettings := Settings {
  maxNumberOfProblems : number
}.

Definition defaultSettings : ExampleSettings := Settings (whole 1000).

(** A [Thenable<ExampleSettings>]: a promise that is already resolved,
    or the answer to the configuration request with the given number,
    still to come from the client. *)
Inductive thenable :=
  | Resolved (s : ExampleSettings)
  | Requested (id : nat).

(** The module-level variables of lines 69-71, 133 and 136, and the
    number of configuration requests made so far. *)
Record state := State {
  hasConfigurationCapability : bool;
  hasWorkspaceFolderCapability : bool;
  hasDiagnosticRelatedInformationCapability : bool;
  globalSettings : ExampleSettings;
  documentSettings : gmap string thenable;
  requests : nat
}.

(** The state when the module is loaded. *)
Definition loaded : state :=
  {| hasConfigurationCapability := false;
     hasWorkspaceFolderCapability := false;
     hasDiagnosticRelatedInformationCapability := false;
     globalSettings := defaultSettings;
     documentSettings := ∅;
     requests := 0 |}.

Definition set_cache (m : gmap string thenable) (n : nat) (st : state) : state :=
  {| hasConfigurationCapability := hasConfigurationCapability st;
     hasWorkspaceFolderCapability := hasWorkspaceFolderCapability st;
     hasDiagnosticRelatedInformationCapability :=
       hasDiagnosticRelatedInformationCapability st;
     globalSettings := globalSettings st;
     documentSettings := m;
     requests := n |}.

Definition set_global (s : ExampleSettings) (st : state) : state :=
  {| hasConfigurationCapability := hasConfigurationCapability st;
     hasWorkspaceFolderCapability := hasWorkspaceFolderCapability st;
     hasDiagnosticRelatedInformationCapability :=
       hasDiagnosticRelatedInformationCapability st;
     globalSettings := s;
     documentSettings := documentSettings st;
     requests := requests st |}.

(** [connection.onInitialize] (lines 73-107). *)
Definition onInitialize (st : state) (capabilities : ClientCapabilities)
  : state * ServerCapabilities :=
  let configuration_ :=
    match workspace capabilities with
    | Some w => truthy (configuration w)
    | None => false
    end in
  let folders :=
    match workspace capabilities with
    | Some w => truthy (workspaceFolders w)
    | None => false
    end in
  let related :=
    match textDocument capabilities with
    | Some t =>
        match publishDiagnostics t with
        | Some p => truthy (relatedInformation p)
        | None => false
        end
    | None => false
    end in
  ({| hasConfigurationCapability := configuration_;
      hasWorkspaceFolderCapability := folders;
      hasDiagnosticRelatedInformationCapability := related;
      globalSettings := globalSettings st;
      documentSettings := documentSettings st;
      requests := requests st |},
   {| textDocumentSync := Incremental;
      resolveProvider := true;
      workspaceFolders_supported := if folders then Some true else None |}).

(** A document position, as [textDocument.positionAt] of the
    vscode-languageserver-textdocument library yields it, is left
    open: the validator is defined for any such function. *)
Record Range (position : Type) := MkRange {
  range_start : position;
  range_end : position
}.
Arguments MkRange {position}.
Arguments range_start {position}.
Arguments range_end {position}.

Record DiagnosticRelatedInformation (position : Type) := Related {
  location_uri : string;
  location_range : Range position;
  related_message : string
}.
Arguments Related {position}.
Arguments location_uri {position}.
Arguments location_range {position}.
Arguments related_message {position}.

Inductive DiagnosticSeverity := Error | Warning | Information | Hint.

Record Diagnostic (position : Type) := MkDiagnostic {
  severity : DiagnosticSeverity;
  range : Range position;
  message : string;
  source : string;
  diagnostic_related : option (list (DiagnosticRelatedInformation position))
}.
Arguments MkDiagnostic {position}.
Arguments severity {position}.
Arguments range {position}.
Arguments message {position}.
Arguments source {position}.
Arguments diagnostic_related {position}.

(** What the handlers of this part do to the outside. *)
Inductive effect (position : Type) :=
  | RegisterDidChangeConfiguration
  | SubscribeWorkspaceFolders
  | GetConfiguration (scopeUri section : string) (id : nat)
  | SendDiagnostics (uri : string) (diagnostics : list (Diagnostic position))
  | ConsoleLog (line : string)
  | TypeError.   (* a property of [null] or [undefined] was read *)
Arguments RegisterDidChangeConfiguration {position}.
Arguments SubscribeWorkspaceFolders {position}.
Arguments GetConfiguration {position}.
Arguments SendDiagnostics {position}.
Arguments ConsoleLog {position}.
Arguments TypeError {position}.

(** *** The pattern [/\b[A-Z]{2,}\b/g] (line 181) *)

(** A string is the list of its code units. *)
Definition is_digit (c : ascii) : bool :=
  Nat.leb 48 (Html.code c) && Nat.leb (Html.code c) 57.

Definition underscore : ascii := Eval cbv in ascii_of_nat 95.

(** The word characters of [\b]: letters, digits and the underscore. *)
Definition is_word (c : ascii) : bool :=
  Html.is_alpha c || is_digit c || Ascii.eqb c underscore.

(** Beyond either end of the string there is no word character. *)
Definition word_at_edge (o : option ascii) : bool :=
  match o with
  | Some c => is_word c
  | None => false
  end.

(** [\b] between two neighbouring places. *)
Definition boundary (before after : option ascii) : bool :=
  xorb (word_at_edge before) (word_at_edge after).

(** Greedy [[A-Z]*]: the capitals at the head, and what follows. *)
Fixpoint capitals (s : list ascii) : list ascii * list ascii :=
  match s with
  | c :: s' =>
      if Html.is_upper c
      then let '(w, rest) := capitals s' in (c :: w, rest)
      else ([], s)
  | [] => ([], [])
  end.

(** The lengths the quantifier [{2,}] tries for a run of [n] capitals:
    all of them first, then one less at a time, down to two. *)
Definition candidates (n : nat) : list nat := rev (seq 2 (n - 1)).

(** [\b] behind the first [k] code units of [s]. *)
Definition ends_word (s : list ascii) (k : nat) : bool :=
  boundary (s !! (k - 1)) (s !! k).

(** [[A-Z]{2,}\b] at the head of [s]: the match and what follows. *)
Definition match_here (s : list ascii) : option (list ascii * list ascii) :=
  match List.find (ends_word s) (candidates (length (capitals s).1)) with
  | Some k => Some (take k s, drop k s)
  | None => None
  end.

(** [pattern.exec(text)] with [s] the text from [lastIndex] on and
    [before] the code unit in front of it: the first place at or behind
    [lastIndex] where the pattern matches, with [m.index], [m[0]] and
    the text behind the match. *)
Fixpoint exec (before : option ascii) (lastIndex : nat) (s : list ascii)
  : option (nat * list ascii * list ascii) :=
  match s with
  | [] => None
  | c :: s' =>
      if boundary before (Some c) then
        match match_here s with
        | Some (w, rest) => Some (lastIndex, w, rest)
        | None => exec (Some c) (S lastIndex) s'
        end
      else exec (Some c) (S lastIndex) s'
  end.

(** The [while] loop of line 186, with [limit] for
    [settings.maxNumberOfProblems]: [exec] is called first, and the
    match is kept when [problems] is below the limit.  Every turn takes
    a match off the text, so the loop turns at most once for each code
    unit: [turns] bounds the turns, and the length of the text is
    enough. *)
Fixpoint uppercase_words (turns : nat) (limit : number) (problems : nat)
    (before : option ascii) (lastIndex : nat) (s : list ascii)
  : list (nat * list ascii) :=
  match turns with
  | 0 => []
  | S turns' =>
      match exec before lastIndex s with
      | None => []
      | Some (index, w, rest) =>
          if below problems limit
          then (index, w)
               :: uppercase_words turns' limit (S problems) (last w)
                    (index + length w) rest
          else []
      end
  end.

(** The matches of the loop in a text, from its beginning. *)
Definition matches (limit : number) (text : list ascii) : list (nat * list ascii) :=
  uppercase_words (length text) limit 0 None 0 text.

(** A whole word of capitals in a text: at least two capitals at
    [index], with no word character in front of them and none
    behind. *)
Definition whole_capital_word (text : list ascii) (index : nat) (w : list ascii)
  : Prop :=
  exists pre post,
    text = pre ++ w ++ post /\ length pre = index
    /\ 2 <= length w /\ Forall (fun c => Html.is_upper c = true) w
    /\ word_at_edge (last pre) = false /\ word_at_edge (head post) = false.

(** The code unit in front of a place that lies [pre] behind a place
    with [before] in front of it. *)
Definition in_front (before : option ascii) (pre : list ascii) : option ascii :=
  match last pre with
  | Some c => Some c
  | None => before
  end.

(** Matches in text order that do not touch: each begins at [from] or
    later, and at least one code unit lies between one and the next. *)
Fixpoint separated (from : nat) (l : list (nat * list ascii)) : Prop :=
  match l with
  | [] => True
  | m :: l' => from <= m.1 /\ separated (S (m.1 + length m.2)) l'
  end.

Section Handlers.
Context {position : Type}.
(** [textDocument.positionAt(offset)] *)
Variable positionAt : Server.TextDocument -> nat -> position.

(** [connection.onInitialized] (lines 109-122). *)
Definition onInitialized (st : state) : list (effect position) :=
  (if hasConfigurationCapability st then [RegisterDidChangeConfiguration] else [])
  ++ (if hasWorkspaceFolderCapability st then [SubscribeWorkspaceFolders] else []).

(** [getDocumentSettings] (lines 152-165). *)
Definition getDocumentSettings (st : state) (resource : string)
  : state * thenable * list (effect position) :=
  if negb (hasConfigurationCapability st)
  then (st, Resolved (globalSettings st), [])
  else
    match documentSettings st !! resource with
    | Some result => (st, result, [])
    | None =>
        let result := Requested (requests st) in
        (set_cache (<[resource := result]> (documentSettings st))
           (S (requests st)) st,
         result,
         [GetConfiguration resource "languageServerExample" (requests st)])
    end.

(** Calls of [getDocumentSettings], one after the other. *)
Fixpoint get_all (st : state) (resources : list string)
  : state * list (effect position) :=
  match resources with
  | [] => (st, [])
  | r :: rs =>
      let '(st1, _, e1) := getDocumentSettings st r in
      let '(st2, e2) := get_all st1 rs in
      (st2, e1 ++ e2)
  end.

(** [documents.onDidClose] (lines 168-170) on the cache itself. *)
Definition onDidClose (st : state) (d : Server.TextDocument) : state :=
  set_cache (delete (Server.doc_uri d) (documentSettings st)) (requests st) st.

(** The body of the loop (lines 187-215): one diagnostic for one
    match. *)
Definition diagnostic_for (st : state) (textDocument : Server.TextDocument)
    (m : nat * list ascii) : Diagnostic position :=
  let r := MkRange (positionAt textDocument m.1)
                   (positionAt textDocument (m.1 + length m.2)) in
  {| severity := Warning;
     range := r;
     message := String.append (string_of_list_ascii m.2) " is all uppercase.";
     source := "ex";
     diagnostic_related :=
       if hasDiagnosticRelatedInformationCapability st
       then Some [ Related (Server.doc_uri textDocument) r "Spelling matters";
                   Related (Server.doc_uri textDocument) r "Particularly for names" ]
       else None |}.

(** The diagnostics of a document under given settings. *)
Definition diagnostics_of (st : state) (settings : ExampleSettings)
    (textDocument : Server.TextDocument) : list (Diagnostic position) :=
  map (diagnostic_for st textDocument)
      (matches (maxNumberOfProblems settings)
         (list_ascii_of_string (Server.getText textDocument))).

(** [validateTextDocument] (lines 175-220) up to its [await]: the
    settings are asked for. *)
Definition validate_begin (st : state) (textDocument : Server.TextDocument)
  : state * thenable * list (effect position) :=
  getDocumentSettings st (Server.doc_uri textDocument).

(** [validateTextDocument] behind its [await], the promise being
    resolved with [settings]: the diagnostics are computed and sent.
    [None] is [null] or [undefined], as a client answers that has no
    such section; [settings.maxNumberOfProblems] is read at the first
    match, and reading it then throws. *)
Definition validate_resume (st : state) (settings : option ExampleSettings)
    (textDocument : Server.TextDocument) : list (effect position) :=
  match settings with
  | Some settings' =>
      [SendDiagnostics (Server.doc_uri textDocument)
         (diagnostics_of st settings' textDocument)]
  | None =>
      match exec None 0 (list_ascii_of_string (Server.getText textDocument)) with
      | Some _ => [TypeError]
      | None => [SendDiagnostics (Server.doc_uri textDocument) []]
      end
  end.

(** [documents.all().forEach(validateTextDocument)]: every call runs up
    to its [await] before the next one starts; the result lists the
    validations that wait and what they wait for. *)
Fixpoint validate_all (st : state) (docs : list Server.TextDocument)
  : state * list (Server.TextDocument * thenable) * list (effect position) :=
  match docs with
  | [] => (st, [], [])
  | d :: docs' =>
      let '(st1, p, e1) := validate_begin st d in
      let '(st2, ps, e2) := validate_all st1 docs' in
      (st2, (d, p) :: ps, e1 ++ e2)
  end.

(** [connection.onDidChangeConfiguration] (lines 138-150).
    [settings] is [change.settings]: [None] when it is [null] or
    [undefined], so that reading its field at line 144 throws;
    otherwise its field [languageServerExample], which is [None] when
    it is missing or falsy, so that [||] takes the default.  [docs] is
    [documents.all()]. *)
Definition onDidChangeConfiguration (st : state)
    (settings : option (option ExampleSettings)) (docs : list Server.TextDocument)
  : state * list (Server.TextDocument * thenable) * list (effect position) :=
  if hasConfigurationCapability st
  then validate_all (set_cache ∅ (requests st) st) docs
  else
    match settings with
    | Some languageServerExample =>
        validate_all (set_global (default defaultSettings languageServerExample) st)
                     docs
    | None => (st, [], [TypeError])
    end.

(** [connection.onDidChangeWatchedFiles] (lines 222-225). *)
Definition onDidChangeWatchedFiles (st : state) : list (effect position) :=
  [ConsoleLog "[XXX] We received an file change event"].

End Handlers.

(** *** Completion (lines 228-259) *)

Inductive CompletionItemKind := KindText | KindOther (n : nat).

(** A completion item; [data] is a number or, as [None], anything
    else. *)
Record CompletionItem := Item {
  label : string;
  kind : CompletionItemKind;
  data : option Z;
  detail : option string;
  documentation : option string
}.

(** [connection.onCompletion] (lines 228-246): the same two items
    wherever completion is asked for. *)
Definition onCompletion : list CompletionItem :=
  [ Item "TypeScript" KindText (Some 1%Z) None None;
    Item "JavaScript" KindText (Some 2%Z) None None ].

(** [connection.onCompletionResolve] (lines 250-259). *)
Definition onCompletionResolve (item : CompletionItem) : CompletionItem :=
  if bool_decide (data item = Some 1%Z) then
    Item (label item) (kind item) (data item)
         (Some "TypeScript details") (Some "TypeScript documentation")
  else if bool_decide (data item = Some 2%Z) then
    Item (label item) (kind item) (data item)
         (Some "JavaScript details") (Some "JavaScript documentation")
  else item.

End Lsp.

(** ** More of the page *)

Module Page.
Import Dom Client.

(** Whether some node below [n] has a child with the identity
    [target]. *)
Fixpoint has_parent_below (target : nat) (n : node) : bool :=
  match n with
  | Element _ _ _ ks =>
      existsb (fun k =>
                 existsb (fun g => Nat.eqb (node_id g) target) (children k)
                 || has_parent_below target k)
              ks
  | _ => false
  end.


(** A stand-in for viz.js in the examples: the call for the source
    "boom" throws, the promise for "bad" is rejected, any other source
    is drawn. *)
Definition render_throwing (src : string) : outcome :=
  if bool_decide (src = "boom") then Throws "out of memory"
  else render_sample src.


End Page.

(** A stand-in for the markdown renderer in the examples: it wraps the
    source in a paragraph. *)
Definition render_paragraph (src : string) : string :=
  String.append "<p>" (String.append src "</p>").

(** * Properties of the server *)

Section ServerProperties.
Import Server.
Variable md_render : string -> string.

Lemma sends_app (o1 o2 : list effect) : sends (o1 ++ o2) = sends o1 ++ sends o2.
Proof.
  induction o1 as [|[] o1 IH]; simpl; try done.
  by rewrite IH.
Qed.

Lemma sends_broadcast (d : TextDocument) (cs : list client) :
  sends (broadcast md_render d cs) = map (fun c => (c, update_of md_render d)) cs.
Proof.
  unfold broadcast.
  induction cs as [|c cs IH]; simpl; [done|].
  by rewrite IH.
Qed.

Lemma render_args_broadcast (d : TextDocument) (cs : list client) :
  render_args (broadcast md_render d cs) = map (fun _ => Some (getText d)) cs.
Proof.
  unfold broadcast.
  induction cs as [|c cs IH]; simpl; [done|].
  by rewrite IH.
Qed.

(** Each of the two broadcasting handlers sends one update to every
    connected viewer and makes the document the focus. *)
Lemma onDidOpen_sends (st : server) (d : TextDocument) :
  currentFocus (onDidOpen md_render st d).1 = doc_uri d
  /\ sends (onDidOpen md_render st d).2
     = map (fun c => (c, update_of md_render d)) (clients st).
Proof. split; [done|]. apply sends_broadcast. Qed.

Lemma onDidChangeContent_sends (st : server) (d : TextDocument) :
  currentFocus (onDidChangeContent md_render st d).1 = doc_uri d
  /\ sends (onDidChangeContent md_render st d).2
     = map (fun c => (c, update_of md_render d)) (clients st).
Proof. split; [done|]. apply sends_broadcast. Qed.

End ServerProperties.

(** C3, as amended: closing the focused document does not reset the
    focus.  After open(A), close(A) from any state, [currentFocus] is
    still A's URI; what is gone is the document, so that the lookup of
    the focused document, [documents.get(currentFocus)], yields
    nothing. *)
Theorem close_keeps_focus (md_render : string -> string)
    (st : Server.server) (u t : string) :
  let st' := (Server.run md_render st [Server.DidOpen u t; Server.DidClose u]).1 in
  Server.currentFocus st' = u
  /\ Server.documents st' !! Server.currentFocus st' = None.
Proof.
  simpl. rewrite lookup_insert_eq. simpl.
  split; [done|]. by rewrite delete_insert_eq, lookup_delete_eq.
Qed.

(** C3, as stated, fails: after open, close of the same document the
    focus is not empty. *)
Lemma close_keeps_focus_counterexample :
  Server.currentFocus
    (Server.run render_paragraph Server.initial
       [Server.DidOpen "a.md" "x"; Server.DidClose "a.md"]).1
  <> EmptyString.
Proof. vm_compute. discriminate. Qed.

(** C4, as amended: a viewer that connects while the focused document
    is open is sent at once, by the connection handler and before any
    further document event, one update with the rendering of that
    document. *)
Theorem connect_sends_focus (md_render : string -> string)
    (st : Server.server) (ws : Server.client) (src : string) :
  Server.documents st !! Server.currentFocus st = Some src ->
  exists m,
    Server.sends (Server.listen md_render st (Server.Connect ws)).2 = [(ws, m)]
    /\ Server.action m = "update"
    /\ Server.text m = md_render src.
Proof.
  intros H. simpl. unfold Server.on_connection. simpl. rewrite H. simpl.
  by eexists.
Qed.

Lemma connect_sends_focus_witness :
  exists m,
    Server.sends
      (Server.listen render_paragraph
         (Server.run render_paragraph Server.initial [Server.DidOpen "a.md" "x"]).1
         (Server.Connect 1)).2
    = [(1, m)]
    /\ Server.action m = "update"
    /\ Server.text m = render_paragraph "x".
Proof.
  apply (connect_sends_focus render_paragraph _ 1 "x").
  vm_compute. reflexivity.
Defined.

(** C4, as stated, fails: a viewer that connects after a document was
    opened is sent a message by the connection handler itself. *)
Lemma connect_sends_focus_counterexample :
  Server.messages_to 1
    (Server.listen render_paragraph
       (Server.run render_paragraph Server.initial [Server.DidOpen "a.md" "x"]).1
       (Server.Connect 1)).2
  <> [].
Proof. vm_compute. discriminate. Qed.

(** C5 at its failing input: the message of the connection handler has
    the fields [action] and [text] and no [uri], whoever connects after
    a document was opened. *)
Theorem connection_message_without_uri (md_render : string -> string)
    (ws : Server.client) :
  Server.sends
    (Server.listen md_render
       (Server.run md_render Server.initial [Server.DidOpen "a.md" "x"]).1
       (Server.Connect ws)).2
  = [(ws, {| Server.action := "update"; Server.text := md_render "x";
             Server.uri := None |})].
Proof.
  simpl. unfold Server.on_connection. simpl. by rewrite lookup_insert_eq.
Qed.

(** C7, as amended: after open(A), open(B), change(A) the focus is A.
    Every connected viewer was sent updates with the event's URI and
    the rendering of the event's text after each event: the open
    handler's and then the change-content handler's after each open,
    the change-content handler's after the change. *)
Theorem focus_determinism (md_render : string -> string) (st : Server.server)
    (a b ta tb ta' : string) :
  let r := Server.run md_render st
             [Server.DidOpen a ta; Server.DidOpen b tb; Server.DidChange a ta'] in
  let all (u t : string) :=
    map (fun c => (c, Server.update_of md_render (Server.Doc u t)))
        (Server.clients st) in
  Server.currentFocus r.1 = a
  /\ map (Server.sends) r.2 = [all a ta ++ all a ta; all b tb ++ all b tb; all a ta'].
Proof.
  simpl.
  destruct (decide (b = a)) as [->|Hne].
  - rewrite lookup_insert_eq. simpl.
    rewrite !sends_app, !sends_broadcast. done.
  - rewrite lookup_insert_ne, lookup_insert_eq by done. simpl.
    rewrite !sends_app, !sends_broadcast. done.
Qed.

(** C7, as stated, fails: a viewer connected before open(A) is sent two
    updates after it, not exactly one. *)
Lemma focus_determinism_counterexample :
  let st := (Server.run render_paragraph Server.initial
               [Server.DidOpen "c.md" "w"; Server.Connect 1]).1 in
  length (Server.messages_to 1 (Server.listen render_paragraph st
                                  (Server.DidOpen "a.md" "x")).2) <> 1.
Proof. vm_compute. discriminate. Qed.

(** C9: in the initial state the focus is the empty string and no
    document is stored under it, and the connection handler calls the
    renderer all the same, with [undefined]. *)
Theorem connect_before_open_renders_undefined (md_render : string -> string)
    (ws : Server.client) :
  Server.currentFocus Server.initial = EmptyString
  /\ Server.documents Server.initial !! Server.currentFocus Server.initial = None
  /\ Server.render_args (Server.listen md_render Server.initial (Server.Connect ws)).2
     = [None].
Proof. done. Qed.

(** * Properties of the document object model *)

Section DomProperties.
Import Dom.

Lemma thread_create_erase (ks : list html) :
  Forall (fun h => forall n, erase (create h n).1 = h) ks ->
  forall n, map erase (thread create ks n).1 = ks.
Proof.
  induction 1 as [|h ks Hh _ IH]; intros n; simpl; [done|].
  specialize (Hh n). destruct (create h n) as [k n1]. simpl in Hh.
  specialize (IH n1). destruct (thread create ks n1) as [ks' n2].
  simpl in *. by rewrite Hh, IH.
Qed.

(** The nodes created for a parsed tree are that tree. *)
Lemma erase_create (h : html) (n : nat) : erase (create h n).1 = h.
Proof.
  revert n. induction h as [s|s|t a ks IH] using html_ind; intros n; simpl; try done.
  pose proof (thread_create_erase ks IH (S n)) as H.
  destruct (thread create ks (S n)) as [ks' n']. simpl in *. by rewrite H.
Qed.

Lemma create_element (t : string) (a : gmap string string) (ks : list html) (n : nat) :
  exists ks' n', create (HElem t a ks) n = (Element n t a ks', n')
                 /\ map erase ks' = ks.
Proof.
  pose proof (erase_create (HElem t a ks) n) as H. simpl in *.
  destruct (thread create ks (S n)) as [ks' n']. simpl in H.
  exists ks', n'. split; [done|]. congruence.
Qed.

Lemma pairwise_erase (ks : list node) :
  Forall (fun a => forall b, isEqualNode a b = true <-> erase a = erase b) ks ->
  forall ks2, pairwise isEqualNode ks ks2 = true <-> map erase ks = map erase ks2.
Proof.
  induction 1 as [|k ks Hk _ IH]; intros [|k2 ks2]; simpl; try done.
  rewrite andb_true_iff, Hk, IH. split.
  - intros [-> ->]. done.
  - intros H. by injection H.
Qed.

(** [isEqualNode] is equality of trees, the identities apart. *)
Lemma isEqualNode_erase (a b : node) :
  isEqualNode a b = true <-> erase a = erase b.
Proof.
  revert b. induction a as [i s|i s|i t at_ ks IH] using node_ind;
    intros [j s2|j s2|j t2 a2 ks2]; simpl; try done.
  - rewrite bool_decide_eq_true. split; congruence.
  - rewrite bool_decide_eq_true. split; congruence.
  - rewrite !andb_true_iff, !bool_decide_eq_true, (pairwise_erase ks IH).
    split.
    + intros [[-> ->] ->]. done.
    + intros H. injection H. done.
Qed.

Lemma carries_false_hasAttribute (name : string) (n : node) :
  carries name n = false -> hasAttribute n name = false.
Proof.
  destruct n as [| |i t a ks]; simpl; try done.
  unfold hasAttribute. simpl. intros H. by apply orb_false_iff in H as [H _].
Qed.

End DomProperties.

(** * Properties of the parser *)

Section ParserProperties.
Import Dom Html.

Lemma on_current_nonempty (g : list html -> list html) (b : builder) :
  (forall l, g l <> []) -> nonempty (on_current g b).
Proof.
  intros Hg. unfold on_current, nonempty.
  destruct (open_elements b); simpl; [right; apply Hg | left; done].
Qed.

Lemma append_char_nonempty (c : ascii) (l : list html) : append_char c l <> [].
Proof. by destruct l as [|[] ?]. Qed.

Lemma pop_nonempty (b : builder) : nonempty b -> nonempty (pop b).
Proof.
  intros H. unfold pop. destruct (open_elements b) eqn:E; [done|].
  by apply on_current_nonempty.
Qed.

Lemma iter_pop_nonempty (n : nat) (b : builder) :
  nonempty b -> nonempty (Nat.iter n pop b).
Proof. intros H. induction n; simpl; [done|]. by apply pop_nonempty. Qed.

Lemma insert_token_nonempty (b : builder) (t : token) :
  nonempty b -> nonempty (insert_token b t).
Proof.
  intros H. destruct t as [c|d|name attrs|name]; simpl.
  - apply on_current_nonempty, append_char_nonempty.
  - by apply on_current_nonempty.
  - destruct (is_void name); [by apply on_current_nonempty | by left].
  - destruct (index_of name (open_elements b)); [|done].
    by apply (iter_pop_nonempty (S _)).
Qed.

Lemma fold_insert_nonempty (toks : list token) (b : builder) :
  nonempty b -> nonempty (fold_left insert_token toks b).
Proof.
  revert b. induction toks as [|t toks IH]; intros b H; simpl; [done|].
  by apply IH, insert_token_nonempty.
Qed.

Lemma feed_all_nonempty (s : string) (p : parser) :
  nonempty p.2 -> nonempty (feed_all p s).2.
Proof.
  revert p. induction s as [|c s IH]; intros p H; simpl; [done|].
  apply IH. unfold feed. destruct (step p.1 c) as [s' toks]. simpl.
  by apply fold_insert_nonempty.
Qed.

Lemma pop_open_length (b : builder) :
  length (open_elements (pop b)) = pred (length (open_elements b)).
Proof.
  unfold pop. destruct (open_elements b) as [|f fs] eqn:E; simpl; [by rewrite E|].
  unfold add_child, on_current. simpl. by destruct fs.
Qed.

Lemma iter_pop_open_length (n : nat) (b : builder) :
  length (open_elements (Nat.iter n pop b)) = length (open_elements b) - n.
Proof.
  induction n; simpl; [lia|]. rewrite pop_open_length, IHn. lia.
Qed.

Lemma finish_nonempty (p : parser) : nonempty p.2 -> finish p <> [].
Proof.
  intros H. unfold finish.
  set (b := fold_left insert_token (flush p.1) p.2).
  assert (Hb : nonempty b) by by apply fold_insert_nonempty.
  pose proof (iter_pop_open_length (length (open_elements b)) b) as Hl.
  pose proof (iter_pop_nonempty (length (open_elements b)) b Hb) as [Hn|Hn].
  - destruct (open_elements (Nat.iter _ pop b)); [done|]. simpl in Hl. lia.
  - intros Hr. apply (f_equal (@rev html)) in Hr. rewrite rev_involutive in Hr. done.
Qed.

Lemma feed_all_app (s1 s2 : string) (p : parser) :
  feed_all p (String.append s1 s2) = feed_all (feed_all p s1) s2.
Proof. revert p. induction s1 as [|c s1 IH]; intros p; simpl; [done|]. apply IH. Qed.

(** Behind the opening [div] of the target string the parser has one
    open element. *)
Lemma feed_target_prefix (rest : string) :
  feed_all start (String.append "<div>" rest)
  = feed_all (Data, Builder [Frame "div" ∅ []] []) rest.
Proof. reflexivity. Qed.

(** The string handed to morphdom never parses to nothing. *)
Lemma parse_target_nonempty (text : string) :
  parse_fragment (Client.target text) <> [].
Proof.
  unfold parse_fragment, Client.target. rewrite feed_target_prefix.
  apply finish_nonempty, feed_all_nonempty. by left.
Qed.

End ParserProperties.

(** * Properties of the reconciliation *)

(** The target string of a heading, parsed: the heading and the empty
    [div] of the second opening tag, inside the first [div]. *)
Example parse_target_heading :
  Html.parse_fragment (Client.target "<h1>Hi</h1>")
  = [Dom.HElem "div" ∅ [Dom.HElem "h1" ∅ [Dom.HText "Hi"]; Dom.HElem "div" ∅ []]].
Proof. vm_compute. reflexivity. Qed.

(** On the page as served the line break is removed, and the heading
    and the empty [div] are added and scrolled to. *)
Example reconcile_heading :
  option_map snd (Client.reconcile Client.viewer0 "<h1>Hi</h1>")
  = Some [Morphdom.RemoveChild 0 1;
          Morphdom.AppendChild 0 3; Morphdom.ScrollIntoView 3;
          Morphdom.AppendChild 0 5; Morphdom.ScrollIntoView 5].
Proof. vm_compute. reflexivity. Qed.

(** A child that the new text omits is removed; what stays is matched
    in place. *)
Example reconcile_removes :
  option_map (fun r => (Dom.children (Client.mdText r.1), r.2))
    (Client.reconcile
       (Client.Viewer
          (Dom.Element 0 "div" ∅
             [Dom.Element 1 "h1" ∅ [Dom.Text 2 "Hi"];
              Dom.Element 3 "p" ∅ [Dom.Text 4 "a"];
              Dom.Element 5 "div" ∅ []]) 6)
       "<h1>Hi</h1>")
  = Some ([Dom.Element 1 "h1" ∅ [Dom.Text 2 "Hi"]; Dom.Element 5 "div" ∅ []],
          [Morphdom.RemoveChild 0 3]).
Proof. vm_compute. reflexivity. Qed.

Section ReconcileProperties.
Import Dom Morphdom Html Client.

Local Abbreviation walk := (morphChildren page_options (morphEl page_options)).

Lemma morphEl_element (opts : options) (ti : nat) (tn : string)
    (ta : gmap string string) (tks : list node) (fi : nat) (fn : string)
    (fa : gmap string string) (fks : list node) :
  morphEl opts (Element ti tn ta tks) (Element fi fn fa fks)
  = let '(tattrs, go, e0) :=
      Morphdom.onBeforeElUpdated opts (Element fi fn fa fks) (Element ti tn ta tks) in
    if go then
      let '(ks, e3) := morphChildren opts (morphEl opts) fi tks fks in
      (Element fi fn tattrs ks,
       e0 ++ morphAttrs fi fa tattrs
          ++ Morphdom.onElUpdated opts (Element fi fn tattrs fks) ++ e3)
    else (Element fi fn fa fks, e0).
Proof. reflexivity. Qed.

Lemma find_compatible_head (t f : node) (fs : list node) :
  compatible f t = true -> find_compatible t (f :: fs) = ([], Some (f, fs)).
Proof. intros H. simpl. by rewrite H. Qed.

Lemma find_compatible_found (t : node) (fs skipped rest : list node) (f : node) :
  find_compatible t fs = (skipped, Some (f, rest)) -> compatible f t = true.
Proof.
  revert skipped. induction fs as [|g fs IH]; intros skipped; simpl; [done|].
  destruct (compatible g t) eqn:E.
  - intros [= <- <- <-]. done.
  - destruct (find_compatible t fs) as [sk found]. intros [= <- ->]. by eapply IH.
Qed.

Lemma erase_compatible (f t : node) : erase f = erase t -> compatible f t = true.
Proof.
  destruct f, t; simpl; try done. intros [= -> _ _]. by apply bool_decide_eq_true.
Qed.

(** A pair of equal trees, the original without [open], is left
    alone: no mutation, no scroll, no write to the target. *)
Lemma morph_pair_quiet (t f : node) :
  erase f = erase t -> carries "open" f = false ->
  morph_matched (morphEl page_options) t f = (f, []).
Proof.
  intros He Hc. destruct t as [j s|j s|j tn ta tks], f as [i s'|i s'|i fn fa fks];
    simpl in He; try done.
  - injection He as ->. simpl. by rewrite bool_decide_eq_true_2.
  - injection He as ->. simpl. by rewrite bool_decide_eq_true_2.
  - unfold morph_matched. rewrite morphEl_element. simpl. unfold onBeforeElUpdated.
    rewrite (carries_false_hasAttribute _ _ Hc).
    assert (isEqualNode (Element i fn fa fks) (Element j tn ta tks) = true) as ->
      by by apply isEqualNode_erase.
    done.
Qed.

Lemma morphChildren_quiet (pid : nat) (ts fs : list node) :
  map erase fs = map erase ts ->
  existsb (carries "open") fs = false ->
  walk pid ts fs = (fs, []).
Proof.
  revert fs. induction ts as [|t ts IH]; intros [|f fs] He Hc; simpl in He; try done.
  injection He as Hf Hfs. simpl in Hc. apply orb_false_iff in Hc as [Hcf Hcfs].
  cbn [morphChildren]. rewrite (find_compatible_head _ _ _ (erase_compatible _ _ Hf)).
  rewrite (morph_pair_quiet t f Hf Hcf), (IH fs Hfs Hcfs). done.
Qed.

Lemma morphChildren_settles (pid : nat) (ts : list node) :
  Forall settles ts ->
  forall fs r e,
    walk pid ts fs = (r, e) ->
    existsb (carries "open") r = false ->
    map erase r = map erase ts.
Proof.
  induction 1 as [|t ts Ht _ IH]; intros fs r e; cbn [morphChildren].
  - intros [= <- _]. done.
  - destruct (find_compatible t fs) as [skipped [[f fs']|]] eqn:Ef.
    + destruct (morph_matched (morphEl page_options) t f) as [n e1] eqn:En.
      destruct (walk pid ts fs') as [r' e2] eqn:Er.
      intros [= <- _] Hc. simpl in Hc. apply orb_false_iff in Hc as [Hcn Hcr].
      simpl. f_equal.
      * eapply Ht; [by eapply find_compatible_found| |]; done.
      * by eapply IH.
    + destruct (walk pid ts []) as [r' e2] eqn:Er.
      intros [= <- _] Hc. simpl in Hc. apply orb_false_iff in Hc as [Hcn Hcr].
      simpl. f_equal. by eapply IH.
Qed.

Lemma every_node_settles (t : node) : settles t.
Proof.
  induction t as [j s|j s|j tn ta tks IH] using node_ind;
    intros [i s'|i s'|i fn fa fks] n e Hcomp; simpl in Hcomp; try done.
  - simpl. case_bool_decide; intros [= <- _] _; simpl; congruence.
  - simpl. case_bool_decide; intros [= <- _] _; simpl; congruence.
  - apply bool_decide_eq_true in Hcomp as ->.
    unfold morph_matched. rewrite morphEl_element. simpl. unfold onBeforeElUpdated.
    destruct (hasAttribute (Element i tn fa fks) "open") eqn:Ho.
    + (* an open original leaves [open] on whatever results *)
      cbn [setAttribute attrs_of node_id].
      destruct (isEqualNode _ _).
      * intros [= <- _] Hc. apply carries_false_hasAttribute in Hc. congruence.
      * destruct (walk i tks fks) as [ks e3]. intros [= <- _] Hc.
        simpl in Hc. apply orb_false_iff in Hc as [Hc _].
        apply bool_decide_eq_false in Hc. destruct Hc.
        rewrite lookup_insert_eq. by eexists.
    + cbn [attrs_of].
      destruct (isEqualNode _ _) eqn:Heq.
      * intros [= <- _] _. by apply isEqualNode_erase in Heq.
      * destruct (walk i tks fks) as [ks e3] eqn:Ew. intros [= <- _] Hc.
        simpl in Hc. apply orb_false_iff in Hc as [_ Hc].
        simpl. f_equal. by eapply morphChildren_settles.
Qed.

Lemma erase_children (n : node) :
  map erase (children n)
  = match erase n with HElem _ _ ks => ks | _ => [] end.
Proof. by destruct n. Qed.

(** The reconciliation never fails. *)
Lemma reconcile_total (v : viewer) (text : string) :
  exists v1 e, reconcile v text = Some (v1, e).
Proof.
  unfold reconcile, reconcile_with, toElement.
  pose proof (parse_target_nonempty text) as Hne.
  destruct (parse_fragment (target text)) as [|h rest]; [done|].
  destruct (create h (next_id v)) as [toNode next].
  destruct (morphdom page_options next (mdText v) toNode) as [root e].
  by eexists _, _.
Qed.

End ReconcileProperties.

(** C1, as amended: when the live tree after a first application
    carries no [open] attribute below the root, a second application
    with the same string does nothing at all: the tree is the same node
    for node, and the trace is empty (no mutation, no scroll call). *)
Theorem reconcile_twice_quiet (v v1 : Client.viewer) (text : string)
    (e1 : list Morphdom.effect) :
  Client.reconcile v text = Some (v1, e1) ->
  existsb (Dom.carries "open") (Dom.children (Client.mdText v1)) = false ->
  exists next,
    Client.reconcile v1 text = Some (Client.Viewer (Client.mdText v1) next, []).
Proof.
  unfold Client.reconcile, Client.reconcile_with, Client.toElement.
  destruct (Html.parse_fragment (Client.target text)) as [|h rest]; [done|].
  pose proof (erase_create h (Client.next_id v)) as E1.
  destruct (Dom.create h (Client.next_id v)) as [t1 n1]. simpl in E1.
  unfold Morphdom.morphdom. simpl.
  destruct (Client.mdText v) as [i s|i s|i fn fa fks] eqn:Hroot.
  - intros [= <- _] _. simpl. destruct (Dom.create h (S n1)). by eexists.
  - intros [= <- _] _. simpl. destruct (Dom.create h (S n1)). by eexists.
  - destruct (Morphdom.morphChildren _ _ i (Dom.children t1) fks) as [ks e] eqn:Ew.
    intros [= <- _] Hc. simpl in *.
    pose proof (erase_create h (S n1)) as E2.
    destruct (Dom.create h (S n1)) as [t2 n2]. simpl in E2.
    assert (map Dom.erase ks = map Dom.erase (Dom.children t1)) as Hks.
    { eapply morphChildren_settles; [|done|done].
      apply Forall_forall. intros. apply every_node_settles. }
    rewrite morphChildren_quiet; [by eexists|..|done].
    by rewrite Hks, !erase_children, E1, E2.
Qed.

Lemma reconcile_twice_quiet_witness :
  let v1 := (default (Client.viewer0, []) (Client.reconcile Client.viewer0 "<h1>Hi</h1>")).1 in
  exists next,
    Client.reconcile v1 "<h1>Hi</h1>" = Some (Client.Viewer (Client.mdText v1) next, []).
Proof.
  apply (reconcile_twice_quiet Client.viewer0 _ "<h1>Hi</h1>"
           (default (Client.viewer0, []) (Client.reconcile Client.viewer0 "<h1>Hi</h1>")).2).
  - vm_compute. reflexivity.
  - vm_compute. reflexivity.
Defined.

(** C1, as stated, fails: on the page as served, a second application of a
    text with an open [details] element sets its [open] attribute anew
    and scrolls it into view. *)
Lemma reconcile_twice_counterexample :
  exists e2,
    Client.second_trace Client.viewer0 "<details open>x</details>" = Some e2
    /\ Client.mutations e2 <> [] /\ Client.scrolls e2 <> [].
Proof.
  exists [Morphdom.TargetSetAttribute 8 "open" "true"; Morphdom.ScrollIntoView 3;
          Morphdom.SetAttribute 3 "open" "true"].
  split; [vm_compute; reflexivity|]. split; vm_compute; discriminate.
Qed.

(** The other way for a second application to be heard: an open
    [details] that the text does not have open keeps its quotation
    unequal to the text, and the quotation is scrolled to again. *)
Example nested_open_scrolls_again :
  Client.second_trace Client.opened_page
    "<blockquote><details>y</details></blockquote>"
  = Some [Morphdom.ScrollIntoView 1; Morphdom.TargetSetAttribute 12 "open" "true"].
Proof. vm_compute. reflexivity. Qed.

Section StickyOpen.
Import Dom Morphdom Html Client.

Local Abbreviation walk := (morphChildren page_options (morphEl page_options)).

(** Along a prefix that pairs up, the walk morphs child [i] of the
    original against child [i] of the target. *)
Lemma walk_paired (pid i : nat) :
  forall fs ts r e,
    paired_upto i fs ts = true ->
    walk pid ts fs = (r, e) ->
    exists f t,
      fs !! i = Some f /\ ts !! i = Some t /\ compatible f t = true
      /\ r !! i = Some (morph_matched (morphEl page_options) t f).1.
Proof.
  induction i as [|i IH]; intros [|f fs] [|t ts] r e Hp; simpl in Hp; try done;
    apply andb_true_iff in Hp as [Hc Hp]; cbn [morphChildren];
    rewrite (find_compatible_head _ _ _ Hc);
    destruct (morph_matched (morphEl page_options) t f) as [n e1] eqn:En;
    destruct (walk pid ts fs) as [r' e2] eqn:Er; intros [= <- _].
  - exists f, t. by rewrite En.
  - destruct (IH fs ts r' e2 Hp Er) as (f' & t' & ? & ? & ? & ?).
    by exists f', t'.
Qed.

Lemma hasAttribute_element (n : node) (name : string) :
  hasAttribute n name = true -> exists i t a ks, n = Element i t a ks.
Proof.
  destruct n as [| |i t a ks]; unfold hasAttribute; simpl.
  - intros H. apply bool_decide_eq_true in H as [? H]. by rewrite lookup_empty in H.
  - intros H. apply bool_decide_eq_true in H as [? H]. by rewrite lookup_empty in H.
  - by eexists _, _, _, _.
Qed.

(** An element with [open] that is morphed against a compatible
    target is the same node afterwards and has [open]. *)
Lemma morphEl_keeps_open (t f : node) :
  compatible f t = true -> hasAttribute f "open" = true ->
  node_id (morphEl page_options t f).1 = node_id f
  /\ hasAttribute (morphEl page_options t f).1 "open" = true.
Proof.
  intros Hc Ho. destruct (hasAttribute_element _ _ Ho) as (i & fn & fa & fks & ->).
  destruct t as [| |j tn ta tks]; simpl in Hc; try done.
  rewrite morphEl_element. simpl. unfold onBeforeElUpdated. rewrite Ho.
  cbn [setAttribute attrs_of node_id].
  destruct (isEqualNode _ _); [done|].
  destruct (walk i tks fks) as [ks e3]. simpl. split; [done|].
  unfold hasAttribute. simpl. apply bool_decide_eq_true.
  rewrite lookup_insert_eq. by eexists.
Qed.

Lemma descend_element (p : list nat) (n E : node) :
  descend p n = Some E -> hasAttribute E "open" = true ->
  exists i t a ks, n = Element i t a ks.
Proof.
  destruct p as [|k p]; simpl.
  - intros [= ->]. apply hasAttribute_element.
  - destruct n as [| |i t a ks]; simpl; try done. intros _ _. by eexists _, _, _, _.
Qed.

(** Stickiness below a matched pair. *)
Lemma morphEl_descend (p : list nat) :
  forall f t E,
    compatible f t = true ->
    descend p f = Some E -> hasAttribute E "open" = true ->
    aligned p f t = true ->
    exists E1,
      descend p (morphEl page_options t f).1 = Some E1
      /\ node_id E1 = node_id E /\ hasAttribute E1 "open" = true.
Proof.
  induction p as [|k p IH]; intros f t E Hc Hd Ho Ha.
  - injection Hd as ->. eexists. split; [done|]. by apply morphEl_keeps_open.
  - destruct (descend_element _ _ _ Hd Ho) as (i & fn & fa & fks & ->).
    destruct t as [| |j tn ta tks]; simpl in Hc; try done.
    simpl in Ha. apply andb_true_iff in Ha as [Hp Ha].
    rewrite morphEl_element.
    destruct (Morphdom.onBeforeElUpdated page_options _ _) as [[tattrs go] e0].
    destruct go; [|by exists E].
    destruct (walk i tks fks) as [ks e3] eqn:Ew.
    destruct (walk_paired i k fks tks ks e3 Hp Ew) as (f' & t' & Hf & Ht & Hc' & Hr).
    simpl in Hd. rewrite Hf in Hd. rewrite Hf, Ht in Ha.
    destruct (descend_element _ _ _ Hd Ho) as (i' & fn' & fa' & fks' & ->).
    destruct t' as [| |j' tn' ta' tks']; simpl in Hc'; try done.
    simpl. rewrite Hr. unfold morph_matched.
    by apply IH.
Qed.

End StickyOpen.

(** C2, as amended: let E be an element of the live tree with [open],
    at a path along which the reconciler pairs the live tree and the
    parsed text by position (at every level the children up to the
    index of the path are compatible one by one), and let E' be its
    counterpart, the node of the parsed text at that path, without
    [open].  After the reconciliation the node at that path is still E
    and has [open]. *)
Theorem open_is_sticky (v v1 : Client.viewer) (text : string)
    (e : list Morphdom.effect) (toNode : Dom.node) (next : nat)
    (p : list nat) (E E' : Dom.node) :
  Client.toElement (Client.target text) (Client.next_id v) = Some (toNode, next) ->
  Client.reconcile v text = Some (v1, e) ->
  Dom.descend p (Client.mdText v) = Some E ->
  Dom.hasAttribute E "open" = true ->
  Morphdom.aligned p (Client.mdText v) toNode = true ->
  Dom.descend p toNode = Some E' ->
  Dom.hasAttribute E' "open" = false ->
  exists E1,
    Dom.descend p (Client.mdText v1) = Some E1
    /\ Dom.node_id E1 = Dom.node_id E
    /\ Dom.hasAttribute E1 "open" = true.
Proof.
  intros Ht Hr Hd Ho Ha _ _. unfold Client.reconcile, Client.reconcile_with in Hr.
  rewrite Ht in Hr.
  unfold Morphdom.morphdom in Hr. simpl in Hr.
  destruct p as [|k p].
  - injection Hd as <-.
    destruct (hasAttribute_element _ _ Ho) as (i & fn & fa & fks & Hroot).
    rewrite Hroot in Hr.
    destruct (Morphdom.morphChildren _ _ i (Dom.children toNode) fks) as [ks e3].
    injection Hr as <- _. simpl. eexists. split; [done|]. by rewrite Hroot in *.
  - destruct (descend_element _ _ _ Hd Ho) as (i & fn & fa & fks & Hroot).
    rewrite Hroot in *.
    destruct (Morphdom.morphChildren _ _ i (Dom.children toNode) fks) as [ks e3] eqn:Ew.
    injection Hr as <- _. simpl in *.
    apply andb_true_iff in Ha as [Hp Ha].
    destruct (walk_paired i k fks _ ks e3 Hp Ew) as (f' & t' & Hf & Ht' & Hc' & Hr').
    rewrite Hf in Hd. rewrite Hf, Ht' in Ha. rewrite Hr'.
    destruct (descend_element _ _ _ Hd Ho) as (i' & fn' & fa' & fks' & ->).
    destruct t' as [| |j' tn' ta' tks']; simpl in Hc'; try done.
    unfold Morphdom.morph_matched. by apply morphEl_descend.
Qed.

Lemma open_is_sticky_witness :
  let text := "<blockquote><details>y</details></blockquote>" in
  let v := Client.opened_page in
  let v1 := (default (v, []) (Client.reconcile v text)).1 in
  exists E1,
    Dom.descend [0; 0] (Client.mdText v1) = Some E1
    /\ Dom.node_id E1 = 2
    /\ Dom.hasAttribute E1 "open" = true.
Proof.
  apply (open_is_sticky Client.opened_page _
           "<blockquote><details>y</details></blockquote>"
           (default (Client.opened_page, [])
              (Client.reconcile Client.opened_page
                 "<blockquote><details>y</details></blockquote>")).2
           (Dom.Element 4 "div" ∅
              [Dom.Element 5 "blockquote" ∅
                 [Dom.Element 6 "details" ∅ [Dom.Text 7 "y"]];
               Dom.Element 8 "div" ∅ []])
           9 [0; 0]
           (Dom.Element 2 "details" (<["open" := EmptyString]> ∅) [Dom.Text 3 "y"])
           (Dom.Element 6 "details" ∅ [Dom.Text 7 "y"]));
    vm_compute; reflexivity.
Defined.

(** C2, as stated, fails: when the children in front of E do not pair
    up with those of the text, the walk passes E over and removes it.
    Here a paragraph stands in front of the open [details] and a
    heading in front of its counterpart: the paragraph and E are
    removed, the closed [details] of the text takes the place, and no
    element of the page is open afterwards. *)
Lemma open_is_sticky_counterexample :
  let v :=
    Client.Viewer
      (Dom.Element 0 "div" ∅
         [Dom.Element 1 "p" ∅ [Dom.Text 2 "x"];
          Dom.Element 3 "details" (<["open" := EmptyString]> ∅) [Dom.Text 4 "y"]]) 5 in
  let text := "<h1>a</h1><details>y</details>" in
  exists v1 e toNode next E E',
    Client.toElement (Client.target text) (Client.next_id v) = Some (toNode, next)
    /\ Client.reconcile v text = Some (v1, e)
    /\ Dom.descend [1] (Client.mdText v) = Some E
    /\ Dom.hasAttribute E "open" = true
    /\ Dom.descend [1] toNode = Some E'
    /\ Dom.hasAttribute E' "open" = false
    /\ In (Morphdom.RemoveChild 0 (Dom.node_id E)) e
    /\ Dom.descend [1] (Client.mdText v1)
       = Some (Dom.Element 8 "details" ∅ [Dom.Text 9 "y"])
    /\ existsb (Dom.carries "open") (Dom.children (Client.mdText v1)) = false.
Proof.
  eexists _, _, _, _, _, _.
  split; [vm_compute; reflexivity|]. split; [vm_compute; reflexivity|].
  split; [vm_compute; reflexivity|]. split; [vm_compute; reflexivity|].
  split; [vm_compute; reflexivity|]. split; [vm_compute; reflexivity|].
  split; [vm_compute; right; left; reflexivity|].
  split; vm_compute; reflexivity.
Qed.

Section RootIdentity.
Import Dom Morphdom Html Client.

Lemma reconcile_shell (v v1 : viewer) (text : string) (e : list effect) :
  reconcile v text = Some (v1, e) -> shell (mdText v1) = shell (mdText v).
Proof.
  unfold reconcile, reconcile_with. destruct (toElement _ _) as [[toNode next]|]; [|done].
  unfold morphdom. simpl. destruct (mdText v) as [| |i fn fa fks].
  - by intros [= <- _].
  - by intros [= <- _].
  - destruct (morphChildren _ _ i (children toNode) fks) as [ks e3].
    by intros [= <- _].
Qed.

Lemma shell_node_id (a b : node) : shell a = shell b -> node_id a = node_id b.
Proof. destruct a, b; simpl; congruence. Qed.

End RootIdentity.

(** The option matters: without [childrenOnly] a root of another name
    than the target's gives way to a new element. *)
Example root_replaced_without_childrenOnly :
  Dom.node_id
    (Morphdom.morphdom
       (Morphdom.Options false Client.onBeforeElUpdated Client.onElUpdated
          Client.onNodeAdded)
       9 (Dom.Element 0 "section" ∅ []) (Dom.Element 1 "div" ∅ [])).1
  = 9.
Proof. vm_compute. reflexivity. Qed.

(** C8: any number of reconciliations go through, and the root is
    afterwards the node it was (same identity, same name, same
    attributes): only what is below it is replaced. *)
Theorem root_identity_stable (v : Client.viewer) (texts : list string) :
  exists v',
    Client.reconcile_all v texts = Some v'
    /\ Dom.node_id (Client.mdText v') = Dom.node_id (Client.mdText v)
    /\ Dom.shell (Client.mdText v') = Dom.shell (Client.mdText v).
Proof.
  revert v. induction texts as [|t texts IH]; intros v; simpl.
  - by exists v.
  - destruct (reconcile_total v t) as (v1 & e & Hr). rewrite Hr.
    destruct (IH v1) as (v' & Hall & Hid & Hsh). exists v'.
    pose proof (reconcile_shell _ _ _ _ Hr) as H1.
    split; [done|]. split.
    + rewrite Hid. by apply shell_node_id.
    + congruence.
Qed.

(** * Balanced text inside the target string *)

Section Balanced.
Import Dom Morphdom Html Client.

Lemma wrap_on_current (g : list html -> list html) (b : builder) :
  on_current g (wrap b) = wrap (on_current g b).
Proof. unfold on_current, wrap. by destruct (open_elements b). Qed.

Lemma wrap_pop (b : builder) :
  open_elements b <> [] -> pop (wrap b) = wrap (pop b).
Proof.
  unfold pop. destruct b as [[|f fs] top]; simpl; [done|]. intros _.
  apply (wrap_on_current _ (Builder fs top)).
Qed.

Lemma wrap_iter_pop (n : nat) (b : builder) :
  n <= length (open_elements b) ->
  Nat.iter n pop (wrap b) = wrap (Nat.iter n pop b).
Proof.
  induction n as [|n IH]; simpl; [done|]. intros Hn.
  rewrite IH by lia. apply wrap_pop.
  pose proof (iter_pop_open_length n b) as Hl.
  destruct (open_elements (Nat.iter n pop b)); [simpl in Hl; lia|done].
Qed.

Lemma index_of_lt (name : string) (fs : list frame) (i : nat) :
  index_of name fs = Some i -> i < length fs.
Proof.
  revert i. induction fs as [|f fs IH]; intros i; simpl; [done|].
  case_bool_decide.
  - intros [= <-]. lia.
  - destruct (index_of name fs) as [j|]; [|done]. intros [= <-].
    specialize (IH j eq_refl). lia.
Qed.

Lemma index_of_app (name : string) (fs gs : list frame) (i : nat) :
  index_of name fs = Some i -> index_of name (fs ++ gs) = Some i.
Proof.
  revert i. induction fs as [|f fs IH]; intros i; simpl; [done|].
  case_bool_decide; [done|].
  destruct (index_of name fs) as [j|]; [|done]. intros [= <-].
  by rewrite (IH j eq_refl).
Qed.

(** A token that closes nothing but the innermost element the text
    opened acts inside the [div] as it acts outside of it. *)
Lemma wrap_insert_token (b : builder) (t : token) :
  closes_own b t = true -> insert_token (wrap b) t = wrap (insert_token b t).
Proof.
  destruct t as [c|d|name attrs|name]; simpl.
  - intros _. apply wrap_on_current.
  - intros _. apply wrap_on_current.
  - intros _. destruct (is_void name); [apply wrap_on_current|done].
  - intros Hi. apply bool_decide_eq_true in Hi.
    rewrite (index_of_app _ _ _ _ Hi), Hi.
    apply (wrap_iter_pop 1 b). apply index_of_lt in Hi. simpl. lia.
Qed.

Lemma wrap_fold_insert (toks : list token) (b : builder) :
  tokens_own b toks = true ->
  fold_left insert_token toks (wrap b) = wrap (fold_left insert_token toks b).
Proof.
  revert b. induction toks as [|t toks IH]; intros b; simpl; [done|].
  intros H. apply andb_true_iff in H as [Ht Hs].
  rewrite (wrap_insert_token _ _ Ht). by apply IH.
Qed.

(** Balanced text leaves the parser in the data state with nothing
    open, and inside the [div] it builds what it builds alone. *)
Lemma balanced_feed (text : string) :
  forall s b,
    balanced_from (s, b) text = true ->
    exists b',
      feed_all (s, b) text = (Data, b')
      /\ open_elements b' = []
      /\ feed_all (s, wrap b) text = (Data, wrap b').
Proof.
  induction text as [|c text IH]; intros s b; simpl.
  - destruct s; try done. intros H. apply bool_decide_eq_true in H.
    by exists b.
  - intros H. apply andb_true_iff in H as [Ht Hb].
    unfold feed in *. simpl in *. destruct (step s c) as [s' toks]. simpl in *.
    rewrite (wrap_fold_insert _ _ Ht). by apply IH.
Qed.

(** What the target string parses to when the text is balanced: one
    [div] that holds the nodes of the text and, after them, an empty
    [div]. *)
Lemma parse_target_balanced (text : string) :
  balanced text = true ->
  parse_fragment (target text)
  = [HElem "div" ∅ (parse_fragment text ++ [HElem "div" ∅ []])].
Proof.
  intros H. destruct (balanced_feed text Data (Builder [] []) H) as (b' & Hf & Ho & Hw).
  unfold parse_fragment, target. rewrite feed_target_prefix, feed_all_app.
  change (Builder [Frame "div" ∅ []] []) with (wrap (Builder [] [])).
  unfold start. rewrite Hw, Hf. destruct b' as [o top]. simpl in Ho. subst o.
  unfold finish, wrap. simpl. reflexivity.
Qed.

End Balanced.

Section TrailingDiv.
Import Dom Morphdom Html Client.
Variable opts : options.
Hypothesis Hdeclines : declines_equal opts.

Local Abbreviation walk := (morphChildren opts (morphEl opts)).

Lemma pairwise_nil_r (ks : list node) :
  pairwise isEqualNode ks [] = true -> ks = [].
Proof. by destruct ks. Qed.

(** Whatever is matched against an empty [div] is an empty [div]
    afterwards. *)
Lemma morph_matched_empty_div (t f : node) :
  compatible f t = true -> erase t = HElem "div" ∅ [] ->
  exists j a, (morph_matched (morphEl opts) t f).1 = Element j "div" a [].
Proof.
  intros Hc He. destruct t as [| |j tn ta tks]; simpl in He; try done.
  injection He as -> -> Hk. apply map_eq_nil in Hk as ->.
  destruct f as [| |i fn fa fks]; simpl in Hc; try done.
  apply bool_decide_eq_true in Hc as ->.
  unfold morph_matched. rewrite morphEl_element.
  destruct (Morphdom.onBeforeElUpdated opts _ _) as [[tattrs go] e0] eqn:Hcb.
  destruct go.
  - simpl. by eexists _, _.
  - apply Hdeclines in Hcb. simpl in Hcb. apply pairwise_nil_r in Hcb as ->.
    by eexists _, _.
Qed.

Lemma walk_cons (pid : nat) (t : node) (ts fs : list node) :
  exists n fs', (walk pid (t :: ts) fs).1 = n :: (walk pid ts fs').1
    /\ (n = t \/ exists f, compatible f t = true
                           /\ n = (morph_matched (morphEl opts) t f).1).
Proof.
  cbn [morphChildren].
  destruct (find_compatible t fs) as [skipped [[f fs']|]] eqn:Ef.
  - destruct (morph_matched (morphEl opts) t f) as [n e1] eqn:En.
    destruct (walk pid ts fs') as [r e2] eqn:Er.
    exists n, fs'. rewrite Er. split; [done|]. right. exists f.
    rewrite En. split; [by eapply find_compatible_found|done].
  - destruct (walk pid ts []) as [r e2] eqn:Er.
    exists t, []. rewrite Er. split; [done|by left].
Qed.

(** The walk ends with an empty [div] when the target does. *)
Lemma walk_last (pid : nat) (ts : list node) :
  forall fs t,
    list.last ts = Some t -> erase t = HElem "div" ∅ [] ->
    exists j a, list.last (walk pid ts fs).1 = Some (Element j "div" a []).
Proof.
  induction ts as [|t0 ts IH]; intros fs t Hl He; [done|].
  destruct (walk_cons pid t0 ts fs) as (n & fs' & -> & Hn).
  destruct ts as [|t1 ts].
  - injection Hl as ->. simpl.
    destruct Hn as [->|(f & Hc & ->)].
    + destruct t as [| |j tn ta tks]; simpl in He; try done.
      injection He as -> -> Hk. apply map_eq_nil in Hk as ->. by eexists _, _.
    + destruct (morph_matched_empty_div t f Hc He) as (j & a & ->). by eexists _, _.
  - destruct (IH fs' t Hl He) as (j & a & Hlast).
    destruct (walk_cons pid t1 ts fs') as (n1 & fs2 & Hw & _).
    rewrite Hw in *. exists j, a. exact Hlast.
Qed.

Lemma map_erase_last (ks : list node) (l : list html) (x : html) :
  map erase ks = l ++ [x] -> exists t, list.last ks = Some t /\ erase t = x.
Proof.
  revert l. induction ks as [|k ks IH]; intros l H.
  - by destruct l.
  - destruct l as [|y l]; simpl in H.
    + injection H as Hk Hks. apply map_eq_nil in Hks as ->. by exists k.
    + injection H as _ Hks. destruct (IH l Hks) as (t & Hl & Ht).
      exists t. split; [|done]. by destruct ks.
Qed.

(** With [childrenOnly], the root ends with an empty [div] after a
    balanced text. *)
Lemma reconcile_with_last (v : viewer) (html : string)
    (i : nat) (fn : string) (fa : gmap string string) (fks : list node) :
  childrenOnly opts = true ->
  mdText v = Element i fn fa fks ->
  balanced html = true ->
  exists v1 e j a,
    reconcile_with opts v html = Some (v1, e)
    /\ list.last (children (mdText v1)) = Some (Element j "div" a []).
Proof.
  intros Hco Hroot Hb. unfold reconcile_with, toElement.
  rewrite (parse_target_balanced html Hb).
  destruct (create_element "div" ∅ (parse_fragment html ++ [HElem "div" ∅ []])
              (next_id v)) as (ks' & n' & -> & Hks).
  unfold morphdom. rewrite Hco, Hroot. simpl.
  destruct (map_erase_last _ _ _ Hks) as (t & Hl & Ht).
  destruct (walk_last i ks' fks t Hl Ht) as (j & a & Hlast).
  destruct (morphChildren _ _ i ks' fks) as [r e].
  by exists (Viewer (Element i fn fa r) (S n')), e, j, a.
Qed.

End TrailingDiv.

Section PageScripts.
Import Dom Morphdom Html Client.

Lemma page_declines_equal : declines_equal page_options.
Proof.
  intros f t ta e. simpl. unfold onBeforeElUpdated.
  destruct (hasAttribute f "open"); destruct (isEqualNode f _) eqn:Heq; try done;
    intros _; destruct f, t; simpl in *; try done;
    by apply andb_true_iff in Heq as [_ Heq].
Qed.

Lemma fragment_declines_equal : declines_equal fragment_options.
Proof.
  intros f t ta e. simpl. unfold fragment_onBeforeElUpdated.
  destruct (hasAttribute f "open"); destruct (isEqualNode f _) eqn:Heq; try done;
    intros _; destruct f, t; simpl in *; try done;
    by apply andb_true_iff in Heq as [_ Heq].
Qed.

End PageScripts.

(** C10, as amended: for a text that is balanced markup, the string
    handed to morphdom ends in a second opening [div] and parses to one
    [div] holding the nodes of the text followed by an empty [div], and
    after the reconciliation the last child of the root is an empty
    [div] element.  The same holds for the earlier page script, where
    the text is its own rendering of the received source. *)
Theorem trailing_empty_div (v : Client.viewer) (text : string)
    (i : nat) (fn : string) (fa : gmap string string) (fks : list Dom.node) :
  Client.mdText v = Dom.Element i fn fa fks ->
  Html.balanced text = true ->
  Client.target text = String.append "<div>" (String.append text "<div>")
  /\ Html.parse_fragment (Client.target text)
     = [Dom.HElem "div" ∅ (Html.parse_fragment text ++ [Dom.HElem "div" ∅ []])]
  /\ (exists v1 e j a,
        Client.reconcile v text = Some (v1, e)
        /\ list.last (Dom.children (Client.mdText v1))
           = Some (Dom.Element j "div" a []))
  /\ (forall md_render src, md_render src = text ->
        exists v1 e j a,
          Client.fragment_reconcile md_render v src = Some (v1, e)
          /\ list.last (Dom.children (Client.mdText v1))
             = Some (Dom.Element j "div" a [])).
Proof.
  intros Hroot Hb. split; [done|]. split; [by apply parse_target_balanced|]. split.
  - by eapply reconcile_with_last; [apply page_declines_equal|..].
  - intros md src Hmd. unfold Client.fragment_reconcile. rewrite Hmd.
    by eapply reconcile_with_last; [apply fragment_declines_equal|..].
Qed.

Lemma trailing_empty_div_witness :
  exists v1 e j a,
    Client.reconcile Client.viewer0 "<h1>Hi</h1><p>a<br>b</p>" = Some (v1, e)
    /\ list.last (Dom.children (Client.mdText v1)) = Some (Dom.Element j "div" a []).
Proof.
  refine (proj1 (proj2 (proj2 (trailing_empty_div Client.viewer0
                                 "<h1>Hi</h1><p>a<br>b</p>" 0 "div" _
                                 [Dom.Text 1 Client.line_break] _ _)))).
  - vm_compute. reflexivity.
  - vm_compute. reflexivity.
Defined.

(** C10, as stated, fails: a text with an end tag of its own closes
    the outer [div]; here the last child of the root is afterwards the
    paragraph of the text, and the page has no empty [div]. *)
Lemma trailing_empty_div_counterexample :
  exists v1 e,
    Client.reconcile Client.viewer0 "<p>x</p></div>" = Some (v1, e)
    /\ list.last (Dom.children (Client.mdText v1))
       = Some (Dom.Element 3 "p" ∅ [Dom.Text 4 "x"]).
Proof. eexists _, _. split; vm_compute; reflexivity. Qed.

Section UpgradeProperties.
Import Dom Morphdom Html Client.
Variable renderSVGElement : string -> outcome.

(** The [catch] block runs for nothing but a call that throws: as
    long as every call returns a promise, nothing is logged, however
    the promises end. *)
Lemma request_logs_only_throws (els : list node) :
  Forall (fun el => forall err, renderSVGElement (textContent el) <> Throws err) els ->
  (request renderSVGElement els).2 = []
  /\ map element (request renderSVGElement els).1 = map node_id els.
Proof.
  induction 1 as [|el els Hel _ IH]; simpl; [done|].
  destruct (renderSVGElement (textContent el)) as [err|svg|err] eqn:E.
  - by destruct (Hel err).
  - destruct (request renderSVGElement els) as [ps o]. simpl in *.
    destruct IH as [-> ->]. done.
  - destruct (request renderSVGElement els) as [ps o]. simpl in *.
    destruct IH as [-> ->]. done.
Qed.

(** A rejected promise changes nothing on the page and is handled by
    nobody. *)
Lemma settle_rejected (v : viewer) (el : nat) (err : string) :
  settle v (Pending el (Rejects err)) = (v, [UnhandledRejection err]).
Proof. reflexivity. Qed.

End UpgradeProperties.

(** C6 at its failing input: for one graphviz block whose render is
    rejected, the source block stays as it is, but the [catch] block
    does not run and nothing is logged: the rejection is left
    unhandled. *)
Theorem rejected_render_not_caught :
  exists v2 e,
    Client.onmessage Client.render_sample Client.viewer0
      "<pre><code class='language-graphviz'>bad</code></pre>"
    = Some (v2, e, [Client.UnhandledRejection "syntax error"])
    /\ Dom.children (Client.mdText v2)
       = [Dom.Element 3 "pre" ∅
            [Dom.Element 4 "code" (<["class" := "language-graphviz"]> ∅)
               [Dom.Text 5 "bad"]];
          Dom.Element 6 "div" ∅ []].
Proof. eexists _, _. split; vm_compute; reflexivity. Qed.

(** A block whose render is fulfilled is replaced, with its [pre], by
    the graphic. *)
Example fulfilled_render_replaces :
  exists v2 e,
    Client.onmessage Client.render_sample Client.viewer0
      "<pre><code class='language-graphviz'>digraph{}</code></pre>"
    = Some (v2, e, [Client.Replaced 4 8])
    /\ Dom.children (Client.mdText v2)
       = [Dom.Element 8 "svg" (<["width" := "100%"]> ∅) [];
          Dom.Element 6 "div" ∅ []].
Proof. eexists _, _. split; vm_compute; reflexivity. Qed.

(** * Properties of the validator *)

Section ValidatorProperties.
Import Lsp.

Lemma upper_is_word (c : ascii) : Html.is_upper c = true -> is_word c = true.
Proof. intros H. unfold is_word, Html.is_alpha. by rewrite H. Qed.

Lemma capitals_spec (s : list ascii) :
  s = (capitals s).1 ++ (capitals s).2
  /\ Forall (fun c => Html.is_upper c = true) (capitals s).1
  /\ match head (capitals s).2 with
     | Some c => Html.is_upper c = false
     | None => True
     end.
Proof.
  induction s as [|c s IH]; simpl; [done|].
  destruct (Html.is_upper c) eqn:Hc.
  - destruct (capitals s) as [w rest]. simpl in *.
    destruct IH as (-> & Hw & Hr). split; [done|]. split; [|done].
    by constructor.
  - simpl. by rewrite Hc.
Qed.

(** The capitals of a run followed by something that is no capital. *)
Lemma capitals_app (w post : list ascii) :
  Forall (fun c => Html.is_upper c = true) w ->
  word_at_edge (head post) = false ->
  capitals (w ++ post) = (w, post).
Proof.
  intros Hw Hp. induction Hw as [|c w Hc _ IH]; simpl.
  - destruct post as [|c post]; [done|]. simpl in *.
    destruct (Html.is_upper c) eqn:Hc; [|done].
    apply upper_is_word in Hc. congruence.
  - by rewrite Hc, IH.
Qed.

Lemma find_all_false {A} (f : A -> bool) (l : list A) :
  Forall (fun x => f x = false) l -> List.find f l = None.
Proof. induction 1 as [|x l Hx _ IH]; simpl; [done|]. by rewrite Hx. Qed.

Lemma candidates_S (n : nat) : candidates (S (S n)) = S (S n) :: candidates (S n).
Proof.
  unfold candidates. replace (S (S n) - 1) with (S n) by lia.
  replace (S n - 1) with n by lia.
  rewrite seq_S, rev_app_distr. done.
Qed.

Lemma candidates_range (n k : nat) : In k (candidates n) -> 2 <= k <= n.
Proof. unfold candidates. rewrite <- in_rev, in_seq. lia. Qed.

(** Inside a run of capitals there is no word boundary. *)
Lemma ends_word_inside (w post : list ascii) (k : nat) :
  Forall (fun c => Html.is_upper c = true) w ->
  1 <= k < length w -> ends_word (w ++ post) k = false.
Proof.
  intros Hw Hk. unfold ends_word, boundary.
  rewrite !lookup_app_l by lia.
  destruct (lookup_lt_is_Some_2 w (k - 1)) as [a Ha]; [lia|].
  destruct (lookup_lt_is_Some_2 w k) as [b Hb]; [lia|].
  rewrite Ha, Hb. simpl.
  rewrite Forall_lookup in Hw.
  by rewrite (upper_is_word a (Hw _ _ Ha)), (upper_is_word b (Hw _ _ Hb)).
Qed.

Lemma ends_word_end (w post : list ascii) :
  Forall (fun c => Html.is_upper c = true) w -> 1 <= length w ->
  ends_word (w ++ post) (length w) = negb (word_at_edge (head post)).
Proof.
  intros Hw Hk. unfold ends_word, boundary.
  rewrite lookup_app_l by lia.
  rewrite lookup_app_r by lia. rewrite Nat.sub_diag, <- head_lookup.
  destruct (lookup_lt_is_Some_2 w (length w - 1)) as [a Ha]; [lia|].
  rewrite Ha. simpl. rewrite Forall_lookup in Hw.
  by rewrite (upper_is_word a (Hw _ _ Ha)).
Qed.

(** Giving back capitals never helps: the pattern matches at a place
    only with the whole run of capitals there, when the run has two
    capitals at least and no word character follows it. *)
Lemma match_here_whole_run (s : list ascii) :
  match_here s
  = if (2 <=? length (capitals s).1)%nat
       && negb (word_at_edge (head (capitals s).2))
    then Some (capitals s) else None.
Proof.
  destruct (capitals_spec s) as (Hs & Hw & _). unfold match_here.
  destruct (capitals s) as [w post]. simpl in *.
  destruct (length w) as [|[|n]] eqn:Hn; try done.
  rewrite candidates_S. simpl List.find.
  rewrite <- Hn. rewrite Hs at 1. rewrite (ends_word_end w post Hw) by lia.
  destruct (word_at_edge (head post)); simpl.
  - rewrite find_all_false; [done|]. apply Forall_forall. intros k Hk.
    apply list_elem_of_In, candidates_range in Hk. rewrite Hs.
    apply ends_word_inside; [done|lia].
  - rewrite Hs. by rewrite take_app_length, drop_app_length.
Qed.

(** What a call of [exec] finds: behind what it passes over ([pre])
    a whole run of capitals, two at least, with no word character in
    front of it and none behind. *)

Lemma in_front_cons (before : option ascii) (c : ascii) (pre : list ascii) :
  in_front before (c :: pre) = in_front (Some c) pre.
Proof. unfold in_front. rewrite last_cons. by destruct (last pre). Qed.

Lemma exec_cons (before : option ascii) (i : nat) (c : ascii) (s : list ascii) :
  exec before i (c :: s)
  = if boundary before (Some c)
       && (2 <=? length (capitals (c :: s)).1)%nat
       && negb (word_at_edge (head (capitals (c :: s)).2))
    then Some (i, (capitals (c :: s)).1, (capitals (c :: s)).2)
    else exec (Some c) (S i) s.
Proof.
  cbn [exec]. rewrite match_here_whole_run.
  destruct (boundary before (Some c)); [|done].
  destruct (capitals (c :: s)) as [w rest]. cbn [fst snd andb].
  by destruct ((2 <=? length w)%nat && negb (word_at_edge (head rest))).
Qed.

Lemma exec_spec (s : list ascii) :
  forall before i j w rest,
    exec before i s = Some (j, w, rest) ->
    exists pre,
      s = pre ++ w ++ rest /\ j = i + length pre
      /\ 2 <= length w /\ Forall (fun c => Html.is_upper c = true) w
      /\ word_at_edge (in_front before pre) = false
      /\ word_at_edge (head rest) = false.
Proof.
  induction s as [|c s IH]; intros before i j w rest; [done|].
  rewrite exec_cons.
  destruct (capitals_spec (c :: s)) as (Hs & Hw & _).
  destruct (capitals (c :: s)) as [w' rest']. cbn [fst snd] in *.
  destruct (boundary before (Some c) && (2 <=? length w')%nat
            && negb (word_at_edge (head rest'))) eqn:Hcond.
  - intros [= <- <- <-].
    apply andb_true_iff in Hcond as [Hcond Hr].
    apply andb_true_iff in Hcond as [Hb Hlen].
    apply Nat.leb_le in Hlen. apply negb_true_iff in Hr.
    exists []. simpl. repeat split; try done; try lia.
    destruct w' as [|a w']; [simpl in Hlen; lia|].
    injection Hs as -> _. apply Forall_cons_1 in Hw as [Ha _].
    unfold boundary in Hb. simpl in Hb.
    rewrite (upper_is_word _ Ha) in Hb. unfold in_front. simpl.
    by destruct (word_at_edge before).
  - intros H. destruct (IH _ _ _ _ _ H) as (pre & -> & -> & ? & ? & Hf & ?).
    exists (c :: pre). rewrite in_front_cons. simpl.
    repeat split; try done; lia.
Qed.

(** Counting below a limit: a smaller count is below it as well, and
    below a whole number are the numbers less than it. *)
Lemma below_mono (limit : number) (p p' : nat) :
  p <= p' -> below p' limit = true -> below p limit = true.
Proof.
  intros Hp. destruct limit as [[a b]| | |]; simpl; try done.
  rewrite !negb_true_iff. unfold Qle_bool. simpl. rewrite !Z.leb_gt. nia.
Qed.

Lemma below_whole (n p : nat) : below p (whole n) = (p <? n)%nat.
Proof.
  unfold below, whole, Qle_bool. simpl. rewrite !Z.mul_1_r.
  destruct (Nat.ltb_spec p n) as [H|H].
  - apply negb_true_iff, Z.leb_gt. lia.
  - apply negb_false_iff, Z.leb_le. lia.
Qed.

(** A match takes two code units at least off the text. *)
Lemma exec_shorter (before : option ascii) (i j : nat) (s w rest : list ascii) :
  exec before i s = Some (j, w, rest) -> length rest + 2 <= length s.
Proof.
  intros He. destruct (exec_spec _ _ _ _ _ _ He) as (pre & -> & _ & Hlen & _).
  rewrite !length_app. lia.
Qed.

(** The loop ends by itself: once the bound on the turns covers the
    text, the result does not depend on it. *)
Lemma uppercase_words_turns (turns : nat) (limit : number) :
  forall turns' problems before i s,
    length s <= turns -> length s <= turns' ->
    uppercase_words turns limit problems before i s
    = uppercase_words turns' limit problems before i s.
Proof.
  induction turns as [|turns IH]; intros [|turns'] problems before i s H1 H2;
    cbn [uppercase_words]; try done.
  - destruct s; [done|simpl in H1; lia].
  - destruct s; [done|simpl in H2; lia].
  - destruct (exec before i s) as [[[j w] rest]|] eqn:He; [|done].
    destruct (below problems limit); [|done]. f_equal.
    apply exec_shorter in He. apply IH; lia.
Qed.

(** The words found lie in the text as whole words of capitals. *)
Lemma uppercase_words_sound (turns : nat) (limit : number) :
  forall problems before i s pre0 j w,
    length pre0 = i -> before = last pre0 ->
    In (j, w) (uppercase_words turns limit problems before i s) ->
    whole_capital_word (pre0 ++ s) j w.
Proof.
  induction turns as [|turns IH]; intros problems before i s pre0 j w Hl Hb;
    cbn [uppercase_words]; [done|].
  destruct (exec before i s) as [[[j' w'] rest]|] eqn:He; [|done].
  destruct (below problems limit); [|done].
  destruct (exec_spec _ _ _ _ _ _ He) as (pre & -> & -> & Hlen & Hw & Hf & Hr).
  intros [[= <- <-]|Hin].
  - exists (pre0 ++ pre), rest. rewrite <- !(assoc_L (++)), length_app.
    repeat split; try done; try lia.
    rewrite last_app. unfold in_front in Hf. rewrite Hb in Hf.
    by destruct (last pre).
  - replace (pre0 ++ pre ++ w' ++ rest) with ((pre0 ++ pre ++ w') ++ rest)
      by by rewrite <- !(assoc_L (++)).
    eapply IH; [| |exact Hin].
    + rewrite !length_app. lia.
    + rewrite !last_app. destruct w' as [|a w']; [simpl in Hlen; lia|].
      by destruct (last (a :: w')) eqn:E; [|apply last_None in E].
Qed.

(** The limit cuts the list off and changes nothing else. *)
Lemma uppercase_words_prefix (turns : nat) (limit : number) :
  forall problems before i s,
    uppercase_words turns limit problems before i s
    = take (length (uppercase_words turns limit problems before i s))
           (uppercase_words turns PlusInfinity problems before i s).
Proof.
  induction turns as [|turns IH]; intros problems before i s;
    cbn [uppercase_words]; [done|].
  destruct (exec before i s) as [[[j w] rest]|]; [|done].
  cbn [below]. destruct (below problems limit); [|done].
  cbn [length take]. f_equal. apply IH.
Qed.

(** Every match that is kept was found with the counter below the
    limit. *)
Lemma uppercase_words_below (turns : nat) (limit : number) :
  forall problems before i s k,
    k < length (uppercase_words turns limit problems before i s) ->
    below (problems + k) limit = true.
Proof.
  induction turns as [|turns IH]; intros problems before i s k;
    cbn [uppercase_words]; [simpl; lia|].
  destruct (exec before i s) as [[[j w] rest]|]; [|simpl; lia].
  destruct (below problems limit) eqn:Hb; [|simpl; lia].
  destruct k as [|k]; [by rewrite Nat.add_0_r|].
  cbn [length]. intros Hk. rewrite Nat.add_succ_r.
  apply (IH (S problems) (last w) (j + length w) rest k). lia.
Qed.

(** Where the limit cuts matches off, the counter has reached it. *)
Lemma uppercase_words_cut (turns : nat) (limit : number) :
  forall problems before i s,
    length (uppercase_words turns limit problems before i s)
    < length (uppercase_words turns PlusInfinity problems before i s) ->
    below (problems + length (uppercase_words turns limit problems before i s)) limit
    = false.
Proof.
  induction turns as [|turns IH]; intros problems before i s;
    cbn [uppercase_words]; [simpl; lia|].
  destruct (exec before i s) as [[[j w] rest]|]; [|simpl; lia].
  cbn [below]. destruct (below problems limit) eqn:Hb.
  - cbn [length]. intros Hk. rewrite Nat.add_succ_r. apply (IH (S problems)). lia.
  - intros _. by rewrite Nat.add_0_r.
Qed.

Lemma last_upper (w : list ascii) :
  1 <= length w -> Forall (fun c => Html.is_upper c = true) w ->
  exists a, last w = Some a /\ Html.is_upper a = true.
Proof.
  intros Hl Hw. destruct (last w) as [a|] eqn:E.
  - exists a. split; [done|]. rewrite Forall_forall in Hw.
    by apply Hw, last_Some_elem_of.
  - apply last_None in E. subst. simpl in Hl. lia.
Qed.

Lemma exec_index (before : option ascii) (i j : nat) (s w rest : list ascii) :
  exec before i s = Some (j, w, rest) ->
  (if word_at_edge before then S i else i) <= j.
Proof.
  intros He. destruct (exec_spec _ _ _ _ _ _ He) as (pre & -> & -> & _ & _ & Hf & _).
  destruct (word_at_edge before) eqn:Hb; [|lia].
  destruct pre as [|c pre]; [|simpl; lia].
  unfold in_front in Hf. simpl in Hf. congruence.
Qed.

Lemma uppercase_words_separated (turns : nat) (limit : number) :
  forall problems before i s,
    separated (if word_at_edge before then S i else i)
              (uppercase_words turns limit problems before i s).
Proof.
  induction turns as [|turns IH]; intros problems before i s;
    cbn [uppercase_words]; [done|].
  destruct (exec before i s) as [[[j w] rest]|] eqn:He; [|done].
  destruct (below problems limit); [|done].
  simpl. split; [by eapply exec_index|].
  destruct (exec_spec _ _ _ _ _ _ He) as (pre & _ & _ & Hlen & Hw & _ & _).
  specialize (IH (S problems) (last w) (j + length w) rest).
  destruct (last_upper w) as (a & Ha & Hup); [lia|done|].
  rewrite Ha in *. simpl in IH. by rewrite (upper_is_word _ Hup) in IH.
Qed.

(** From a place in front of a whole word of capitals, [exec] finds
    that word, or a match that ends before it. *)
Lemma exec_reaches (pre : list ascii) :
  forall before i w post,
    2 <= length w -> Forall (fun c => Html.is_upper c = true) w ->
    word_at_edge (in_front before pre) = false ->
    word_at_edge (head post) = false ->
    exec before i (pre ++ w ++ post) = Some (i + length pre, w, post)
    \/ exists j w' pre',
         exec before i (pre ++ w ++ post) = Some (j, w', pre' ++ w ++ post)
         /\ j + length w' + length pre' = i + length pre
         /\ 1 <= length w' /\ length pre' < length pre
         /\ in_front (last w') pre' = in_front before pre.
Proof.
  induction pre as [|c pre IH]; intros before i w post Hlen Hw Hf Hp.
  - left. simpl. destruct w as [|a w]; [simpl in Hlen; lia|].
    rewrite <- app_comm_cons, exec_cons, app_comm_cons.
    rewrite (capitals_app _ _ Hw Hp). cbn [fst snd].
    apply Forall_cons_1 in Hw as [Ha _]. unfold boundary, in_front in *. simpl in *.
    rewrite Hf, (upper_is_word _ Ha), Hp. simpl.
    destruct w; [simpl in Hlen; lia|]. simpl. by rewrite Nat.add_0_r.
  - rewrite <- app_comm_cons, exec_cons, app_comm_cons.
    destruct (capitals_spec ((c :: pre) ++ w ++ post)) as (Hs & Hw' & Hr').
    destruct (capitals ((c :: pre) ++ w ++ post)) as [w' rest']. cbn [fst snd] in *.
    destruct (boundary before (Some c) && (2 <=? length w')%nat
              && negb (word_at_edge (head rest'))) eqn:Hcond.
    + right.
      apply andb_true_iff in Hcond as [Hcond Hr].
      apply andb_true_iff in Hcond as [Hb Hl'].
      apply Nat.leb_le in Hl'. apply negb_true_iff in Hr.
      (* the match ends inside [pre] *)
      assert (length w' < length (c :: pre)) as Hshort.
      { destruct (decide (length w' < length (c :: pre))) as [|Hge]; [done|].
        exfalso. rewrite in_front_cons in Hf.
        assert (exists a, last (c :: pre) = Some a) as [a Ha].
        { destruct (last (c :: pre)) eqn:E; [by eexists|]. by apply last_None in E. }
        assert (Html.is_upper a = true) as Hup.
        { apply last_Some in Ha as [l' Hl].
          assert (w' !! length l' = Some a) as Hin.
          { rewrite <- (lookup_app_l w' rest') by (rewrite Hl, length_app in Hge; simpl in Hge; lia).
            rewrite <- Hs, Hl. rewrite <- (assoc_L (++)). simpl. by apply list_lookup_middle. }
          rewrite Forall_lookup in Hw'. by eapply Hw'. }
        unfold in_front in Hf. rewrite last_cons in Ha.
        destruct (last pre) eqn:E; injection Ha as ->; simpl in Hf;
          rewrite (upper_is_word _ Hup) in Hf; done. }
      assert (c :: pre = w' ++ drop (length w') (c :: pre)) as Hpre.
      { rewrite <- (take_drop (length w') (c :: pre)) at 1. f_equal.
        apply (f_equal (take (length w'))) in Hs.
        rewrite take_app_le in Hs by lia. by rewrite take_app_length in Hs. }
      set (pre' := drop (length w') (c :: pre)) in *.
      assert (rest' = pre' ++ w ++ post) as ->.
      { rewrite Hpre, <- (assoc_L (++)) in Hs. by apply app_inv_head in Hs. }
      exists i, w', pre'. split; [done|].
      assert (length (c :: pre) = length w' + length pre') as Hlens
        by by rewrite Hpre at 1; rewrite length_app.
      split; [simpl in *; lia|]. split; [lia|]. split; [simpl in *; lia|].
      unfold in_front. rewrite Hpre, last_app.
      assert (pre' <> []) as Hne by (intros E; rewrite E in Hlens; simpl in *; lia).
      destruct (last pre') eqn:E; [done|]. by apply last_None in E.
    + rewrite in_front_cons in Hf.
      destruct (IH (Some c) (S i) w post Hlen Hw Hf Hp) as [He|(j & w2 & pre' & He & Hj & Hw2 & Hlt & Hin)].
      * left. rewrite He. f_equal. f_equal. f_equal. simpl. lia.
      * right. exists j, w2, pre'. rewrite He. split; [done|].
        split; [simpl; lia|]. split; [done|]. split; [simpl; lia|].
        by rewrite in_front_cons.
Qed.

(** Every whole word of capitals is found, once the limit is above
    its index. *)
Lemma uppercase_words_complete (turns : nat) (limit : number) :
  forall pre problems before i w post,
    length (pre ++ w ++ post) <= turns ->
    below (problems + length pre) limit = true ->
    2 <= length w -> Forall (fun c => Html.is_upper c = true) w ->
    word_at_edge (in_front before pre) = false ->
    word_at_edge (head post) = false ->
    In (i + length pre, w)
       (uppercase_words turns limit problems before i (pre ++ w ++ post)).
Proof.
  induction turns as [|turns IH];
    intros pre problems before i w post Hturns Hroom Hlen Hw Hf Hp.
  - rewrite !length_app in Hturns. lia.
  - cbn [uppercase_words].
    rewrite (below_mono limit problems (problems + length pre)) by (lia || done).
    destruct (exec_reaches pre before i w post Hlen Hw Hf Hp)
      as [He|(j & w' & pre' & He & Hj & Hw' & Hlt & Hin)]; rewrite He.
    + by left.
    + right. replace (i + length pre) with ((j + length w') + length pre') by lia.
      apply IH; try done.
      * rewrite !length_app in *. lia.
      * apply (below_mono limit _ (problems + length pre)); [lia|done].
      * by rewrite Hin.
Qed.

End ValidatorProperties.

(** X1: every diagnostic marks a whole word of capitals of the
    document: at least two capitals with no word character in front of
    them and none behind; its range runs from the index of that word
    to its end, and its message quotes the word. *)
Theorem diagnostics_mark_capital_words {position : Type}
    (positionAt : Server.TextDocument -> nat -> position) (st : Lsp.state)
    (settings : Lsp.ExampleSettings) (doc : Server.TextDocument)
    (d : Lsp.Diagnostic position) :
  In d (Lsp.diagnostics_of positionAt st settings doc) ->
  exists index w,
    Lsp.whole_capital_word (list_ascii_of_string (Server.getText doc)) index w
    /\ Lsp.range d
       = Lsp.MkRange (positionAt doc index) (positionAt doc (index + length w))
    /\ Lsp.message d
       = String.append (string_of_list_ascii w) " is all uppercase."
    /\ Lsp.severity d = Lsp.Warning /\ Lsp.source d = "ex".
Proof.
  unfold Lsp.diagnostics_of. intros Hd. apply in_map_iff in Hd as ([index w] & <- & Hin).
  exists index, w. split; [|done].
  by eapply (uppercase_words_sound _ _ 0 None 0 _ [] index w); [| |exact Hin].
Qed.

Lemma diagnostics_mark_capital_words_witness :
  exists index w,
    Lsp.whole_capital_word (list_ascii_of_string "see ABC and De") index w
    /\ Lsp.range (Lsp.MkDiagnostic Lsp.Warning (Lsp.MkRange 4 7)
                    "ABC is all uppercase." "ex" None)
       = Lsp.MkRange (index : nat) (index + length w)
    /\ "ABC is all uppercase."
       = String.append (string_of_list_ascii w) " is all uppercase."
    /\ Lsp.Warning = Lsp.Warning /\ "ex" = "ex".
Proof.
  apply (diagnostics_mark_capital_words (fun _ n => n) Lsp.loaded Lsp.defaultSettings
           (Server.Doc "a.md" "see ABC and De")
           (Lsp.MkDiagnostic Lsp.Warning (Lsp.MkRange 4 7)
              "ABC is all uppercase." "ex" None)).
  vm_compute. left. reflexivity.
Defined.

(** X2: the loop keeps a match only while the number of diagnostics
    so far is below [maxNumberOfProblems], whatever number that is.
    The diagnostics are the first ones of the diagnostics without a
    limit; there are no more of them than any count that is not below
    the limit (at most [n] under a whole number [n], none under a
    negative number or [NaN]); and when some are cut off, their number
    is not below the limit. *)
Theorem diagnostics_limit {position : Type}
    (positionAt : Server.TextDocument -> nat -> position) (st : Lsp.state)
    (settings : Lsp.ExampleSettings) (doc : Server.TextDocument) :
  let ds := Lsp.diagnostics_of positionAt st settings doc in
  let all := Lsp.diagnostics_of positionAt st (Lsp.Settings Lsp.PlusInfinity) doc in
  ds = take (length ds) all
  /\ (forall n, Lsp.below n (Lsp.maxNumberOfProblems settings) = false ->
                length ds <= n)
  /\ (length ds < length all ->
      Lsp.below (length ds) (Lsp.maxNumberOfProblems settings) = false)
  /\ (forall n, Lsp.maxNumberOfProblems settings = Lsp.whole n -> length ds <= n).
Proof.
  unfold Lsp.diagnostics_of, Lsp.matches. cbn [Lsp.maxNumberOfProblems].
  set (limit := Lsp.maxNumberOfProblems settings).
  set (text := list_ascii_of_string (Server.getText doc)).
  rewrite !length_map.
  assert (forall n, Lsp.below n limit = false ->
            length (Lsp.uppercase_words (length text) limit 0 None 0 text) <= n) as Hle.
  { intros n Hn.
    destruct (decide (length (Lsp.uppercase_words (length text) limit 0 None 0 text) <= n))
      as [|Hgt]; [done|].
    assert (Lsp.below (0 + n) limit = true) as Hb
      by (apply (uppercase_words_below (length text) limit 0 None 0 text n); lia).
    simpl in Hb. congruence. }
  split; [|split; [done|split]].
  - rewrite List.firstn_map. f_equal. apply uppercase_words_prefix.
  - intros Hlt. by apply (uppercase_words_cut _ limit 0 None 0 text).
  - intros n Hn. apply Hle. rewrite Hn, below_whole. by apply Nat.ltb_irrefl.
Qed.

(** Under the limit 1.5 the loop keeps two matches: the second is
    found with the counter at one. *)
Example diagnostics_limit_fraction :
  Lsp.matches (Lsp.Finite (3 # 2)) (list_ascii_of_string "AB CD EF")
  = [(0, ["A"; "B"]%char); (3, ["C"; "D"]%char)].
Proof. vm_compute. reflexivity. Qed.

(** X3: every whole word of capitals of the document whose index is
    below [maxNumberOfProblems] has its diagnostic. *)
Theorem capital_words_are_reported {position : Type}
    (positionAt : Server.TextDocument -> nat -> position) (st : Lsp.state)
    (settings : Lsp.ExampleSettings) (doc : Server.TextDocument)
    (index : nat) (w : list ascii) :
  Lsp.whole_capital_word (list_ascii_of_string (Server.getText doc)) index w ->
  Lsp.below index (Lsp.maxNumberOfProblems settings) = true ->
  In (Lsp.diagnostic_for positionAt st doc (index, w))
     (Lsp.diagnostics_of positionAt st settings doc).
Proof.
  intros (pre & post & Ht & Hl & Hlen & Hw & Hpre & Hpost) Hroom.
  unfold Lsp.diagnostics_of, Lsp.matches. apply in_map. rewrite Ht. subst index.
  apply (uppercase_words_complete _ _ pre 0 None 0 w post); try done.
  unfold Lsp.in_front. by destruct (last pre).
Qed.

Lemma capital_words_are_reported_witness :
  In (Lsp.diagnostic_for (fun _ n => n) Lsp.loaded (Server.Doc "a.md" "AB, CDE") (4, ["C"; "D"; "E"]%char))
     (Lsp.diagnostics_of (fun _ n => n) Lsp.loaded Lsp.defaultSettings
        (Server.Doc "a.md" "AB, CDE")).
Proof.
  apply (capital_words_are_reported (fun _ n => n) Lsp.loaded Lsp.defaultSettings
           (Server.Doc "a.md" "AB, CDE") 4 ["C"; "D"; "E"]%char).
  - exists ["A"; "B"; ","; " "]%char, []. vm_compute.
    repeat split; try lia. repeat constructor.
  - vm_compute. reflexivity.
Defined.

(** X4: the words the loop reports come in text order and never
    touch: each begins at least one code unit behind the end of the one
    before. *)
Theorem reported_words_separated (turns : nat) (limit : Lsp.number)
    (problems : nat) (text : list ascii) :
  Lsp.separated 0 (Lsp.uppercase_words turns limit problems None 0 text).
Proof. apply (uppercase_words_separated turns limit problems None 0 text). Qed.

(** * Properties of the settings cache, initialisation and completion *)

Section SettingsProperties.
Import Lsp.
Context {position : Type}.

Lemma getDocumentSettings_keeps (st : state) (r r' : string) (p : thenable) :
  documentSettings st !! r = Some p ->
  documentSettings (getDocumentSettings (position:=position) st r').1.1 !! r = Some p
  /\ hasConfigurationCapability (getDocumentSettings (position:=position) st r').1.1
     = hasConfigurationCapability st.
Proof.
  intros Hp. unfold getDocumentSettings.
  destruct (hasConfigurationCapability st) eqn:Hc; simpl; [|by rewrite Hc].
  destruct (documentSettings st !! r') eqn:Hr'; simpl; [by rewrite Hc|].
  split; [|done]. rewrite lookup_insert_ne; [done|]. intros ->. congruence.
Qed.

Lemma get_all_keeps (rs : list string) :
  forall st r p,
    documentSettings st !! r = Some p ->
    documentSettings (get_all (position:=position) st rs).1 !! r = Some p
    /\ hasConfigurationCapability (get_all (position:=position) st rs).1
       = hasConfigurationCapability st.
Proof.
  induction rs as [|r' rs IH]; intros st r p Hp; simpl; [done|].
  destruct (getDocumentSettings_keeps st r r' p Hp) as [H1 H2].
  destruct (getDocumentSettings st r') as [[st1 p1] e1]. simpl in *.
  destruct (IH st1 r p H1) as [H3 H4].
  destruct (get_all st1 rs) as [st2 e2]. simpl in *. split; congruence.
Qed.

Lemma validate_all_without_capability (docs : list Server.TextDocument) :
  forall st,
    hasConfigurationCapability st = false ->
    validate_all (position:=position) st docs
    = (st, map (fun d => (d, Resolved (globalSettings st))) docs, []).
Proof.
  induction docs as [|d docs IH]; intros st Hc; simpl; [done|].
  unfold validate_begin, getDocumentSettings. rewrite Hc. simpl.
  by rewrite (IH st Hc).
Qed.

Lemma validate_all_fresh (docs : list Server.TextDocument) :
  forall st,
    hasConfigurationCapability st = true ->
    NoDup (map Server.doc_uri docs) ->
    Forall (fun d => documentSettings st !! Server.doc_uri d = None) docs ->
    (validate_all (position:=position) st docs).2
    = imap (fun i d => GetConfiguration (Server.doc_uri d) "languageServerExample"
                         (requests st + i)) docs
    /\ (validate_all (position:=position) st docs).1.2
       = imap (fun i d => (d, Requested (requests st + i))) docs.
Proof.
  induction docs as [|d docs IH]; intros st Hc Hnd Hfresh; simpl; [done|].
  apply NoDup_cons in Hnd as [Hd Hnd]. apply Forall_cons_1 in Hfresh as [Hfd Hfresh].
  unfold validate_begin, getDocumentSettings. rewrite Hc, Hfd. simpl.
  set (st1 := set_cache _ _ st).
  destruct (IH st1) as [He Hp]; [done|done| |].
  { apply Forall_forall. intros d' Hd'. simpl.
    rewrite lookup_insert_ne.
    - rewrite Forall_forall in Hfresh. by apply Hfresh.
    - intros E. apply Hd. rewrite E.
      by apply list_elem_of_In, in_map, list_elem_of_In. }
  destruct (validate_all st1 docs) as [[st2 ps] e2]. simpl in *.
  rewrite Nat.add_0_r. subst e2 ps. split; f_equal; apply imap_ext; intros i d' _;
    simpl; repeat f_equal; lia.
Qed.

Lemma validate_all_global (docs : list Server.TextDocument) :
  forall st,
    globalSettings (validate_all (position:=position) st docs).1.1 = globalSettings st.
Proof.
  induction docs as [|d docs IH]; intros st; simpl; [done|].
  unfold validate_begin, getDocumentSettings.
  destruct (negb (hasConfigurationCapability st)); simpl.
  - specialize (IH st). by destruct (validate_all st docs) as [[? ?] ?].
  - destruct (documentSettings st !! Server.doc_uri d); simpl.
    + specialize (IH st). by destruct (validate_all st docs) as [[? ?] ?].
    + specialize (IH (set_cache (<[Server.doc_uri d:=Requested (requests st)]>
                                   (documentSettings st)) (S (requests st)) st)).
      by destruct (validate_all _ docs) as [[? ?] ?].
Qed.

End SettingsProperties.

(** X5: with the configuration capability, the settings of a resource
    are asked of the client once: after a first call of
    [getDocumentSettings] for it, and whatever other calls follow, the
    next call for it returns the very same promise and sends no
    request. *)
Theorem settings_requested_once {position : Type} (st : Lsp.state)
    (r : string) (rs : list string) :
  Lsp.hasConfigurationCapability st = true ->
  let first := Lsp.getDocumentSettings (position:=position) st r in
  let st2 := (Lsp.get_all (position:=position) first.1.1 rs).1 in
  Lsp.getDocumentSettings (position:=position) st2 r = (st2, first.1.2, []).
Proof.
  intros Hc. simpl.
  assert (Lsp.documentSettings (Lsp.getDocumentSettings (position:=position) st r).1.1 !! r
          = Some (Lsp.getDocumentSettings (position:=position) st r).1.2
          /\ Lsp.hasConfigurationCapability
               (Lsp.getDocumentSettings (position:=position) st r).1.1 = true) as [H1 H2].
  { unfold Lsp.getDocumentSettings. rewrite Hc. simpl.
    destruct (Lsp.documentSettings st !! r) eqn:E; simpl; [done|].
    by rewrite lookup_insert_eq. }
  destruct (Lsp.getDocumentSettings st r) as [[st1 p1] e1]. simpl in *.
  destruct (get_all_keeps (position:=position) rs st1 r p1 H1) as [H3 H4].
  unfold Lsp.getDocumentSettings at 1. rewrite H4, H2, H3. done.
Qed.

Lemma settings_requested_once_witness :
  let st := (Lsp.onInitialize Lsp.loaded
               (Lsp.ClientCaps (Some (Lsp.WorkspaceCaps (Some true) None)) None)).1 in
  let first := Lsp.getDocumentSettings (position:=nat) st "a.md" in
  let st2 := (Lsp.get_all (position:=nat) first.1.1 ["b.md"; "a.md"; "c.md"]).1 in
  Lsp.getDocumentSettings (position:=nat) st2 "a.md" = (st2, first.1.2, []).
Proof.
  apply (settings_requested_once
           (Lsp.onInitialize Lsp.loaded
              (Lsp.ClientCaps (Some (Lsp.WorkspaceCaps (Some true) None)) None)).1
           "a.md" ["b.md"; "a.md"; "c.md"]).
  vm_compute. reflexivity.
Defined.

(** X6: a closed document's settings are forgotten and no others:
    with the configuration capability, the next call of
    [getDocumentSettings] for the closed document asks the client
    again, with a new request, while the cache entry of every other
    resource is as before. *)
Theorem close_forgets_settings {position : Type} (st : Lsp.state)
    (d : Server.TextDocument) :
  Lsp.hasConfigurationCapability st = true ->
  (Lsp.getDocumentSettings (position:=position) (Lsp.onDidClose st d)
     (Server.doc_uri d)).2
  = [Lsp.GetConfiguration (Server.doc_uri d) "languageServerExample" (Lsp.requests st)]
  /\ (Lsp.getDocumentSettings (position:=position) (Lsp.onDidClose st d)
        (Server.doc_uri d)).1.2
     = Lsp.Requested (Lsp.requests st)
  /\ forall r, r <> Server.doc_uri d ->
       Lsp.documentSettings (Lsp.onDidClose st d) !! r = Lsp.documentSettings st !! r.
Proof.
  intros Hc. unfold Lsp.getDocumentSettings, Lsp.onDidClose. simpl.
  rewrite Hc, lookup_delete_eq. simpl. repeat split.
  intros r Hr. by rewrite lookup_delete_ne.
Qed.

Lemma close_forgets_settings_witness :
  let st := (Lsp.getDocumentSettings (position:=nat)
               (Lsp.onInitialize Lsp.loaded
                  (Lsp.ClientCaps (Some (Lsp.WorkspaceCaps (Some true) None)) None)).1
               "a.md").1.1 in
  (Lsp.getDocumentSettings (position:=nat) (Lsp.onDidClose st (Server.Doc "a.md" "x"))
     "a.md").2
  = [Lsp.GetConfiguration "a.md" "languageServerExample" 1]
  /\ (Lsp.getDocumentSettings (position:=nat) (Lsp.onDidClose st (Server.Doc "a.md" "x"))
        "a.md").1.2
     = Lsp.Requested 1
  /\ forall r, r <> "a.md" ->
       Lsp.documentSettings (Lsp.onDidClose st (Server.Doc "a.md" "x")) !! r
       = Lsp.documentSettings st !! r.
Proof.
  apply (close_forgets_settings
           (Lsp.getDocumentSettings (position:=nat)
              (Lsp.onInitialize Lsp.loaded
                 (Lsp.ClientCaps (Some (Lsp.WorkspaceCaps (Some true) None)) None)).1
              "a.md").1.1
           (Server.Doc "a.md" "x")).
  vm_compute. reflexivity.
Defined.

(** X7: without the configuration capability a configuration change
    asks the client nothing.  When [change.settings] is [null] or
    [undefined], reading its field throws: nothing is adopted and
    nothing is validated.  Otherwise the global settings become the
    section that came with the change, or the default settings when it
    came without one or with a falsy one, and every open document is
    validated under them. *)
Theorem configuration_change_without_capability {position : Type} (st : Lsp.state)
    (settings : option (option Lsp.ExampleSettings)) (docs : list Server.TextDocument) :
  Lsp.hasConfigurationCapability st = false ->
  let r := Lsp.onDidChangeConfiguration (position:=position) st settings docs in
  match settings with
  | Some example =>
      Lsp.globalSettings r.1.1 = default Lsp.defaultSettings example
      /\ Lsp.documentSettings r.1.1 = Lsp.documentSettings st
      /\ r.1.2
         = map (fun d => (d, Lsp.Resolved (default Lsp.defaultSettings example))) docs
      /\ r.2 = []
  | None => r = (st, [], [Lsp.TypeError])
  end.
Proof.
  intros Hc. unfold Lsp.onDidChangeConfiguration. rewrite Hc.
  destruct settings as [example|]; [|done].
  rewrite validate_all_without_capability by done. done.
Qed.

Lemma configuration_change_without_capability_witness :
  let r := Lsp.onDidChangeConfiguration (position:=nat) Lsp.loaded
             (Some (Some (Lsp.Settings (Lsp.Finite (3 # 2)))))
             [Server.Doc "a.md" "x"] in
  Lsp.globalSettings r.1.1 = Lsp.Settings (Lsp.Finite (3 # 2))
  /\ Lsp.documentSettings r.1.1 = Lsp.documentSettings Lsp.loaded
  /\ r.1.2 = [(Server.Doc "a.md" "x", Lsp.Resolved (Lsp.Settings (Lsp.Finite (3 # 2))))]
  /\ r.2 = [].
Proof.
  apply (configuration_change_without_capability Lsp.loaded
           (Some (Some (Lsp.Settings (Lsp.Finite (3 # 2)))))
           [Server.Doc "a.md" "x"]).
  reflexivity.
Defined.

(** X8: with the configuration capability a configuration change
    empties the cache, whatever section came with it, and asks the
    client anew for every open document: one request for each, in the
    order of the documents, each validation waiting for its own
    request. *)
Theorem configuration_change_with_capability {position : Type} (st : Lsp.state)
    (settings : option (option Lsp.ExampleSettings)) (docs : list Server.TextDocument) :
  Lsp.hasConfigurationCapability st = true ->
  NoDup (map Server.doc_uri docs) ->
  let r := Lsp.onDidChangeConfiguration (position:=position) st settings docs in
  r.2 = imap (fun i d => Lsp.GetConfiguration (Server.doc_uri d)
                           "languageServerExample" (Lsp.requests st + i)) docs
  /\ r.1.2 = imap (fun i d => (d, Lsp.Requested (Lsp.requests st + i))) docs
  /\ Lsp.globalSettings r.1.1 = Lsp.globalSettings st.
Proof.
  intros Hc Hnd. unfold Lsp.onDidChangeConfiguration. rewrite Hc. simpl.
  destruct (validate_all_fresh (position:=position) docs
              (Lsp.set_cache ∅ (Lsp.requests st) st)) as [He Hp]; [done|done| |].
  { apply Forall_forall. intros d _. simpl. apply lookup_empty. }
  split; [done|]. split; [done|].
  by rewrite validate_all_global.
Qed.

Lemma configuration_change_with_capability_witness :
  let st := (Lsp.onInitialize Lsp.loaded
               (Lsp.ClientCaps (Some (Lsp.WorkspaceCaps (Some true) None)) None)).1 in
  let docs := [Server.Doc "a.md" "x"; Server.Doc "b.md" "y"] in
  let r := Lsp.onDidChangeConfiguration (position:=nat) st None docs in
  r.2 = imap (fun i d => Lsp.GetConfiguration (Server.doc_uri d)
                           "languageServerExample" (Lsp.requests st + i)) docs
  /\ r.1.2 = imap (fun i d => (d, Lsp.Requested (Lsp.requests st + i))) docs
  /\ Lsp.globalSettings r.1.1 = Lsp.globalSettings st.
Proof.
  apply (configuration_change_with_capability
           (Lsp.onInitialize Lsp.loaded
              (Lsp.ClientCaps (Some (Lsp.WorkspaceCaps (Some true) None)) None)).1
           None [Server.Doc "a.md" "x"; Server.Doc "b.md" "y"]).
  - vm_compute. reflexivity.
  - apply NoDup_cons. split; [|apply NoDup_singleton].
    simpl. intros H. apply list_elem_of_In in H as [H|[]]. discriminate.
Defined.

(** X9: what [onInitialize] answers and what [onInitialized] then does
    agree with what the client announced: workspace folders are
    advertised exactly when the server then subscribes to their
    changes, which is exactly when the client announced them; and the
    server registers for configuration changes exactly when the client
    announced [workspace.configuration]. *)
Theorem initialize_follows_client {position : Type} (st : Lsp.state)
    (capabilities : Lsp.ClientCapabilities) :
  let r := Lsp.onInitialize st capabilities in
  (Lsp.workspaceFolders_supported r.2 = Some true
   <-> In Lsp.SubscribeWorkspaceFolders (Lsp.onInitialized (position:=position) r.1))
  /\ (In Lsp.SubscribeWorkspaceFolders (Lsp.onInitialized (position:=position) r.1)
      <-> exists w, Lsp.workspace capabilities = Some w
                    /\ Lsp.workspaceFolders w = Some true)
  /\ (In Lsp.RegisterDidChangeConfiguration (Lsp.onInitialized (position:=position) r.1)
      <-> exists w, Lsp.workspace capabilities = Some w
                    /\ Lsp.configuration w = Some true)
  /\ Lsp.textDocumentSync r.2 = Lsp.Incremental
  /\ Lsp.resolveProvider r.2 = true.
Proof.
  destruct capabilities as [[w|] t]; unfold Lsp.onInitialized; simpl.
  - assert (Lsp.truthy (Lsp.configuration w) = true <-> Lsp.configuration w = Some true)
      as Hc by (destruct (Lsp.configuration w) as [[|]|]; simpl; split; congruence).
    assert (Lsp.truthy (Lsp.workspaceFolders w) = true
            <-> Lsp.workspaceFolders w = Some true)
      as Hf by (destruct (Lsp.workspaceFolders w) as [[|]|]; simpl; split; congruence).
    destruct (Lsp.truthy (Lsp.configuration w)), (Lsp.truthy (Lsp.workspaceFolders w));
      simpl; intuition (try discriminate);
      try (exists w; split; [reflexivity|tauto]);
      try match goal with
          | H : exists _, Some _ = Some _ /\ _ |- _ =>
              destruct H as (? & [= <-] & ?); intuition congruence
          end.
  - intuition (try discriminate);
      match goal with H : exists _, None = Some _ /\ _ |- _ =>
        by destruct H as (? & [=] & _) end.
Qed.

(** X10: a diagnostic carries related information exactly when the
    client announced [textDocument.publishDiagnostics.relatedInformation]
    at initialisation, and then it is the two notes of the source, each
    for the document and the range of the diagnostic itself. *)
Theorem related_information_follows_client {position : Type}
    (positionAt : Server.TextDocument -> nat -> position)
    (capabilities : Lsp.ClientCapabilities) (settings : Lsp.ExampleSettings)
    (doc : Server.TextDocument) (d : Lsp.Diagnostic position) :
  In d (Lsp.diagnostics_of positionAt (Lsp.onInitialize Lsp.loaded capabilities).1
          settings doc) ->
  (is_Some (Lsp.diagnostic_related d)
   <-> exists t p, Lsp.textDocument capabilities = Some t
                   /\ Lsp.publishDiagnostics t = Some p
                   /\ Lsp.relatedInformation p = Some true)
  /\ forall l, Lsp.diagnostic_related d = Some l ->
       l = [ Lsp.Related (Server.doc_uri doc) (Lsp.range d) "Spelling matters";
             Lsp.Related (Server.doc_uri doc) (Lsp.range d) "Particularly for names" ].
Proof.
  unfold Lsp.diagnostics_of. intros Hd. apply in_map_iff in Hd as (m & <- & _).
  assert (Lsp.hasDiagnosticRelatedInformationCapability
            (Lsp.onInitialize Lsp.loaded capabilities).1 = true
          <-> exists t p, Lsp.textDocument capabilities = Some t
                          /\ Lsp.publishDiagnostics t = Some p
                          /\ Lsp.relatedInformation p = Some true) as Hflag.
  { destruct capabilities as [w [[[[[[|]|]]|]]|]]; simpl;
      (split; [first [done | by intros _; eexists _, _]
              | first [done | by intros (t & p & ? & ? & ?); simplify_eq/=]]). }
  unfold Lsp.diagnostic_for.
  destruct (Lsp.hasDiagnosticRelatedInformationCapability _); simpl.
  - split; [|by intros l [= <-]]. split; [intros _; by apply Hflag|by eexists].
  - split; [|done]. split; [by intros [? [=]]|]. intros H. by apply Hflag in H.
Qed.

Lemma related_information_follows_client_witness :
  let capabilities :=
    Lsp.ClientCaps None (Some (Lsp.TextDocumentCaps (Some (Lsp.PublishCaps (Some true))))) in
  let d := Lsp.diagnostic_for (fun _ n => n) (Lsp.onInitialize Lsp.loaded capabilities).1
             (Server.Doc "a.md" "AB") (0, ["A"; "B"]%char) in
  (is_Some (Lsp.diagnostic_related d)
   <-> exists t p, Lsp.textDocument capabilities = Some t
                   /\ Lsp.publishDiagnostics t = Some p
                   /\ Lsp.relatedInformation p = Some true)
  /\ forall l, Lsp.diagnostic_related d = Some l ->
       l = [ Lsp.Related "a.md" (Lsp.range d) "Spelling matters";
             Lsp.Related "a.md" (Lsp.range d) "Particularly for names" ].
Proof.
  apply (related_information_follows_client (fun _ n => n)
           (Lsp.ClientCaps None
              (Some (Lsp.TextDocumentCaps (Some (Lsp.PublishCaps (Some true))))))
           Lsp.defaultSettings (Server.Doc "a.md" "AB")).
  vm_compute. left. reflexivity.
Defined.

(** X11: resolving a completion item never touches its label, kind or
    data, changes nothing at all unless the data is the number 1 or 2,
    and resolving twice is resolving once; each item that [onCompletion]
    offers is resolved to the details and the documentation that begin
    with its own label. *)
Theorem completion_resolve (item : Lsp.CompletionItem) :
  Lsp.label (Lsp.onCompletionResolve item) = Lsp.label item
  /\ Lsp.kind (Lsp.onCompletionResolve item) = Lsp.kind item
  /\ Lsp.data (Lsp.onCompletionResolve item) = Lsp.data item
  /\ (Lsp.data item <> Some 1%Z -> Lsp.data item <> Some 2%Z ->
      Lsp.onCompletionResolve item = item)
  /\ Lsp.onCompletionResolve (Lsp.onCompletionResolve item) = Lsp.onCompletionResolve item
  /\ (In item Lsp.onCompletion ->
      Lsp.detail (Lsp.onCompletionResolve item)
      = Some (String.append (Lsp.label item) " details")
      /\ Lsp.documentation (Lsp.onCompletionResolve item)
         = Some (String.append (Lsp.label item) " documentation")).
Proof.
  assert (In item Lsp.onCompletion ->
          (Lsp.data item = Some 1%Z /\ Lsp.label item = "TypeScript")
          \/ (Lsp.data item = Some 2%Z /\ Lsp.label item = "JavaScript")) as Hin
    by (intros [<-|[<-|[]]]; simpl; auto).
  set (offered := In item Lsp.onCompletion) in *. clearbody offered.
  unfold Lsp.onCompletionResolve.
  destruct (decide (Lsp.data item = Some 1%Z)) as [E1|E1].
  - repeat first [rewrite (bool_decide_eq_true_2 _ E1) | progress simpl].
    repeat split; intros; try done; try congruence.
    all: match goal with H : _ |- _ =>
           destruct (Hin H) as [[_ ->]|[? _]]; [done|congruence] end.
  - destruct (decide (Lsp.data item = Some 2%Z)) as [E2|E2].
    + repeat first [rewrite (bool_decide_eq_false_2 _ E1)
                   | rewrite (bool_decide_eq_true_2 _ E2) | progress simpl].
      repeat split; intros; try done; try congruence.
      all: match goal with H : _ |- _ =>
             destruct (Hin H) as [[? _]|[_ ->]]; [congruence|done] end.
    + repeat first [rewrite (bool_decide_eq_false_2 _ E1)
                   | rewrite (bool_decide_eq_false_2 _ E2) | progress simpl].
      repeat split; intros; try done; try congruence.
      all: match goal with H : _ |- _ =>
             destruct (Hin H) as [[? _]|[? _]]; congruence end.
Qed.

Lemma completion_resolve_witness :
  Lsp.detail (Lsp.onCompletionResolve (Lsp.Item "JavaScript" Lsp.KindText (Some 2%Z) None None))
  = Some "JavaScript details".
Proof.
  apply (proj1 (proj2 (proj2 (proj2 (proj2 (proj2
           (completion_resolve (Lsp.Item "JavaScript" Lsp.KindText (Some 2%Z) None None))))))
           ltac:(vm_compute; right; left; reflexivity))).
Defined.

(** * More properties of the server *)

(** X12: whatever the event, every message that is sent goes to a
    connected viewer, has the action "update", and carries the
    rendering of the text that the document manager holds for a
    document: the document named by the message's [uri], or the
    focused document when the message has no [uri]. *)
Theorem sent_messages_render_stored_text (md_render : string -> string)
    (st : Server.server) (e : Server.event) (ws : Server.client)
    (m : Server.message) :
  In (ws, m) (Server.sends (Server.listen md_render st e).2) ->
  let st' := (Server.listen md_render st e).1 in
  In ws (Server.clients st')
  /\ Server.action m = "update"
  /\ exists u t,
       Server.documents st' !! u = Some t
       /\ Server.text m = md_render t
       /\ (Server.uri m = Some u
           \/ Server.uri m = None /\ u = Server.currentFocus st').
Proof.
  destruct e as [u t|u t|u|c|c data|c]; simpl.
  - rewrite sends_app, !sends_broadcast. simpl. intros H.
    assert (In (ws, m) (map (fun c => (c, Server.update_of md_render (Server.Doc u t)))
                          (Server.clients st))) as H'
      by (apply in_app_or in H as [H|H]; done).
    apply in_map_iff in H' as (c & [= <- <-] & Hc). split; [done|]. split; [done|].
    exists u, t. simpl. rewrite lookup_insert_eq. auto.
  - destruct (Server.documents st !! u) eqn:Hu; simpl; [|done].
    rewrite sends_broadcast. simpl. intros H'.
    apply in_map_iff in H' as (c & [= <- <-] & Hc). split; [done|]. split; [done|].
    exists u, t. simpl. rewrite lookup_insert_eq. auto.
  - by destruct (Server.documents st !! u).
  - unfold Server.on_connection. simpl.
    destruct (Server.documents st !! Server.currentFocus st) as [src|] eqn:Hf; simpl;
      [|done].
    intros [[= <- <-]|[]]. split; [apply in_or_app; right; by left|]. split; [done|].
    exists (Server.currentFocus st), src. simpl. auto.
  - done.
  - done.
Qed.

Lemma sent_messages_render_stored_text_witness :
  let st := (Server.run render_paragraph Server.initial
               [Server.DidOpen "a.md" "x"; Server.Connect 1]).1 in
  let m := Server.update_of render_paragraph (Server.Doc "a.md" "y") in
  let st' := (Server.listen render_paragraph st (Server.DidChange "a.md" "y")).1 in
  In 1 (Server.clients st')
  /\ Server.action m = "update"
  /\ exists u t,
       Server.documents st' !! u = Some t
       /\ Server.text m = render_paragraph t
       /\ (Server.uri m = Some u
           \/ Server.uri m = None /\ u = Server.currentFocus st').
Proof.
  apply (sent_messages_render_stored_text render_paragraph
           (Server.run render_paragraph Server.initial
              [Server.DidOpen "a.md" "x"; Server.Connect 1]).1
           (Server.DidChange "a.md" "y") 1
           (Server.update_of render_paragraph (Server.Doc "a.md" "y"))).
  vm_compute. left. reflexivity.
Defined.

(** X13: the focus moves with an open and with a change of an open
    document and with nothing else: a close, a change of a document
    that is not open, a connecting, sending or leaving viewer all leave
    [currentFocus] as it is, and of these only the close touches the
    documents.  An open and a change of an open document store the new
    text under the document's URI. *)
Theorem focus_moves_only_on_open_and_change (md_render : string -> string)
    (st : Server.server) (e : Server.event) :
  let st1 := (Server.listen md_render st e).1 in
  match e with
  | Server.DidOpen u t =>
      Server.currentFocus st1 = u
      /\ Server.documents st1 = <[u := t]> (Server.documents st)
  | Server.DidChange u t =>
      match Server.documents st !! u with
      | Some _ =>
          Server.currentFocus st1 = u
          /\ Server.documents st1 = <[u := t]> (Server.documents st)
      | None =>
          Server.currentFocus st1 = Server.currentFocus st
          /\ Server.documents st1 = Server.documents st
      end
  | Server.DidClose u =>
      Server.currentFocus st1 = Server.currentFocus st
      /\ Server.documents st1 = delete u (Server.documents st)
  | _ =>
      Server.currentFocus st1 = Server.currentFocus st
      /\ Server.documents st1 = Server.documents st
  end.
Proof.
  destruct e as [u t|u t|u|c|c data|c]; simpl; try done.
  - by destruct (Server.documents st !! u) eqn:Hu.
  - destruct (Server.documents st !! u) eqn:Hu; simpl; [done|].
    split; [done|]. by rewrite delete_id.
  - unfold Server.on_connection. simpl. by destruct (Server.render_call _ _).
Qed.

(** X14: a broadcast renders the document anew for every viewer: the
    renderer is called once for each connected viewer, each time on the
    text of the event's document, and not at all when nobody is
    connected. *)
Theorem renders_once_per_viewer (md_render : string -> string)
    (st : Server.server) (d : Server.TextDocument) :
  Server.render_args (Server.onDidChangeContent md_render st d).2
  = replicate (length (Server.clients st)) (Some (Server.getText d))
  /\ Server.render_args (Server.onDidOpen md_render st d).2
     = replicate (length (Server.clients st)) (Some (Server.getText d))
  /\ (Server.clients st = [] ->
      (Server.onDidChangeContent md_render st d).2 = []
      /\ (Server.onDidOpen md_render st d).2 = []).
Proof.
  simpl. rewrite !render_args_broadcast.
  assert (forall (cs : list Server.client),
            map (fun _ => Some (Server.getText d)) cs
            = replicate (length cs) (Some (Server.getText d))) as H
    by (induction cs as [|c cs IH]; simpl; [done|by rewrite IH]).
  rewrite H. split; [done|]. split; [done|]. by intros ->.
Qed.

(** * More properties of the page *)

Section PageProperties.
Import Dom Morphdom Html Client Page.

Local Abbreviation walk := (morphChildren page_options (morphEl page_options)).

Lemma request_app_throw (r : string -> outcome) (pre post : list node) (el : node)
    (err : string) :
  Forall (fun k => forall e, r (textContent k) <> Throws e) pre ->
  r (textContent el) = Throws err ->
  request r (pre ++ el :: post)
  = (map (fun k => Pending (node_id k) (r (textContent k))) pre, [ConsoleError err]).
Proof.
  intros Hpre Hel. induction Hpre as [|k pre Hk _ IH]; simpl.
  - by rewrite Hel.
  - rewrite IH. destruct (r (textContent k)) eqn:E; [by destruct (Hk err0)|done|done].
Qed.

Lemma replace_parent_none (target : nat) (newEl n : node) :
  has_parent_below target n = false -> replace_parent target newEl n = n.
Proof.
  induction n as [| |i t a ks IH] using node_ind; simpl; try done.
  intros H. f_equal. induction IH as [|k ks Hk _ IHks]; simpl in *; [done|].
  apply orb_false_iff in H as [Hk' Hks]. apply orb_false_iff in Hk' as [Hp Hb].
  rewrite Hp, (Hk Hb), (IHks Hks). done.
Qed.

Lemma map_lookup {A B} (f : A -> B) (l : list A) (i : nat) :
  map f l !! i = f <$> l !! i.
Proof. revert i. induction l as [|x l IH]; intros [|i]; simpl; try done. Qed.

Lemma walk_length (pid : nat) (ts : list node) :
  forall fs, length (walk pid ts fs).1 = length ts.
Proof.
  induction ts as [|t ts IH]; intros fs; cbn [morphChildren]; [done|].
  destruct (find_compatible t fs) as [skipped [[f fs']|]].
  - destruct (morph_matched (morphEl page_options) t f) as [n e1].
    specialize (IH fs'). destruct (walk pid ts fs') as [r e2]. simpl in *. lia.
  - specialize (IH []). destruct (walk pid ts []) as [r e2]. simpl in *. lia.
Qed.

Lemma morph_matched_id (t f : node) :
  compatible f t = true ->
  node_id (morph_matched (morphEl page_options) t f).1 = node_id f.
Proof.
  intros Hc. destruct t as [j s|j s|j tn ta tks], f as [i s'|i s'|i fn fa fks];
    simpl in Hc; try done.
  - simpl. by case_bool_decide.
  - simpl. by case_bool_decide.
  - unfold morph_matched. rewrite morphEl_element.
    destruct (Morphdom.onBeforeElUpdated page_options _ _) as [[tattrs go] e0].
    destruct go; [|done]. by destruct (walk i tks fks).
Qed.






Lemma replace_parent_at (target : nat) (newEl root k : node) (i : nat) :
  children root !! i = Some k ->
  existsb (fun g => Nat.eqb (node_id g) target) (children k) = true ->
  children (replace_parent target newEl root) !! i = Some newEl.
Proof.
  destruct root as [| |j t a ks]; simpl; try done.
  intros Hk Hc. by rewrite map_lookup, Hk; simpl; rewrite Hc.
Qed.

Lemma replace_parent_frame (target : nat) (newEl root k : node) (i : nat) :
  children root !! i = Some k ->
  existsb (fun g => Nat.eqb (node_id g) target) (children k) = false ->
  has_parent_below target k = false ->
  children (replace_parent target newEl root) !! i = Some k.
Proof.
  destruct root as [| |j t a ks]; simpl; try done.
  intros Hk Hc Hb. rewrite map_lookup, Hk; simpl; rewrite Hc.
  by rewrite replace_parent_none.
Qed.

End PageProperties.





(** X17: original children that pair up by position with the
    target's children survive a reconciliation as the same nodes: at
    every index up to which the children in front are compatible one by
    one, the child of the root is afterwards the node that was there
    before.  The root has afterwards as many children as the target. *)
Theorem paired_children_keep_identity (v v1 : Client.viewer) (text : string)
    (e : list Morphdom.effect) (t : Dom.node) (n k : nat) :
  Client.toElement (Client.target text) (Client.next_id v) = Some (t, n) ->
  Client.reconcile v text = Some (v1, e) ->
  Morphdom.paired_upto k (Dom.children (Client.mdText v)) (Dom.children t) = true ->
  length (Dom.children (Client.mdText v1)) = length (Dom.children t)
  /\ exists f f1,
       Dom.children (Client.mdText v) !! k = Some f
       /\ Dom.children (Client.mdText v1) !! k = Some f1
       /\ Dom.node_id f1 = Dom.node_id f.
Proof.
  unfold Client.reconcile, Client.reconcile_with. intros ->.
  unfold Morphdom.morphdom. simpl.
  destruct (Client.mdText v) as [j s|j s|j fn fa fks]; simpl.
  - by destruct k.
  - by destruct k.
  - pose proof (walk_length j (Dom.children t) fks) as Hlen.
    destruct (Morphdom.morphChildren _ _ j (Dom.children t) fks) as [r e'] eqn:Er.
    intros [= <- <-] Hp. simpl in *. split; [done|].
    destruct (walk_paired j k fks (Dom.children t) r e' Hp Er)
      as (f & t' & Hf & Ht & Hc & Hr).
    eexists f, _. split; [done|]. split; [exact Hr|]. by apply morph_matched_id.
Qed.

Lemma paired_children_keep_identity_witness :
  exists f f1,
    [Dom.Element 1 "h1" ∅ [Dom.Text 2 "T"]; Dom.Element 3 "p" ∅ [Dom.Text 4 "old"]] !! 1
    = Some f
    /\ [Dom.Element 1 "h1" ∅ [Dom.Text 2 "T"]; Dom.Element 3 "p" ∅ [Dom.Text 4 "new"];
        Dom.Element 10 "div" ∅ []] !! 1 = Some f1
    /\ Dom.node_id f1 = Dom.node_id f.
Proof.
  refine (proj2 (paired_children_keep_identity
            (Client.Viewer (Dom.Element 0 "div" ∅
               [Dom.Element 1 "h1" ∅ [Dom.Text 2 "T"];
                Dom.Element 3 "p" ∅ [Dom.Text 4 "old"]]) 5)
            (Client.Viewer (Dom.Element 0 "div" ∅
               [Dom.Element 1 "h1" ∅ [Dom.Text 2 "T"];
                Dom.Element 3 "p" ∅ [Dom.Text 4 "new"];
                Dom.Element 10 "div" ∅ []]) 12)
            "<h1>T</h1><p>new</p>" _ _ _ 1 _ _ _)).
  - vm_compute. reflexivity.
  - vm_compute. reflexivity.
  - vm_compute. reflexivity.
Defined.

(** X18: a call of the renderer that throws ends the upgrade loop:
    the blocks in front of it have been requested, in document order,
    the blocks after it are never requested, and the [catch] block logs
    that one error. *)
Theorem throw_ends_upgrade (renderSVGElement : string -> Client.outcome)
    (v : Client.viewer) (pre post : list Dom.node) (el : Dom.node) (err : string) :
  Client.getElementsByClassName "language-graphviz" (Client.mdText v)
  = pre ++ el :: post ->
  Forall (fun k => forall e, renderSVGElement (Dom.textContent k) <> Client.Throws e) pre ->
  renderSVGElement (Dom.textContent el) = Client.Throws err ->
  Client.upgrade renderSVGElement v
  = (map (fun k => Client.Pending (Dom.node_id k) (renderSVGElement (Dom.textContent k)))
         pre,
     [Client.ConsoleError err]).
Proof.
  intros Hels Hpre Hel. unfold Client.upgrade. rewrite Hels.
  by apply request_app_throw.
Qed.


Lemma throw_ends_upgrade_witness :
  Client.upgrade Page.render_throwing
    (Client.Viewer
       (Dom.Element 0 "div" ∅
          [Dom.Element 1 "pre" ∅
             [Dom.Element 2 "code" (<["class" := "language-graphviz"]> ∅)
                [Dom.Text 3 "digraph{}"]];
           Dom.Element 4 "pre" ∅
             [Dom.Element 5 "code" (<["class" := "language-graphviz"]> ∅)
                [Dom.Text 6 "boom"]];
           Dom.Element 7 "pre" ∅
             [Dom.Element 8 "code" (<["class" := "language-graphviz"]> ∅)
                [Dom.Text 9 "digraph{a}"]]]) 10)
  = ([Client.Pending 2 (Client.Resolves (Dom.HElem "svg" ∅ []))],
     [Client.ConsoleError "out of memory"]).
Proof.
  apply (throw_ends_upgrade Page.render_throwing _
           [Dom.Element 2 "code" (<["class" := "language-graphviz"]> ∅)
              [Dom.Text 3 "digraph{}"]]
           [Dom.Element 8 "code" (<["class" := "language-graphviz"]> ∅)
              [Dom.Text 9 "digraph{a}"]]
           (Dom.Element 5 "code" (<["class" := "language-graphviz"]> ∅)
              [Dom.Text 6 "boom"])
           "out of memory").
  - vm_compute. reflexivity.
  - constructor; [|constructor]. intros e. vm_compute. discriminate.
  - vm_compute. reflexivity.
Defined.

(** X19: a fulfilled render replaces the [pre] around its block, not
    the block: the child of the root that is the parent of the block
    becomes the new graphic, a fresh node with [width="100%"]; every
    other child of the root that holds no parent of the block stays as
    it is. *)
Theorem fulfilled_render_replaces_pre (v : Client.viewer) (block i : nat)
    (k : Dom.node) (t : string) (a : gmap string string) (ks : list Dom.html) :
  Dom.children (Client.mdText v) !! i = Some k ->
  existsb (fun g => Nat.eqb (Dom.node_id g) block) (Dom.children k) = true ->
  let v2 := (Client.settle v (Client.Pending block (Client.Resolves (Dom.HElem t a ks)))).1 in
  (exists newEl,
     Dom.children (Client.mdText v2) !! i = Some newEl
     /\ Dom.node_id newEl = Client.next_id v
     /\ Dom.erase newEl = Dom.HElem t (<["width" := "100%"]> a) ks)
  /\ (forall j k',
        Dom.children (Client.mdText v) !! j = Some k' ->
        existsb (fun g => Nat.eqb (Dom.node_id g) block) (Dom.children k') = false ->
        Page.has_parent_below block k' = false ->
        Dom.children (Client.mdText v2) !! j = Some k').
Proof.
  intros Hk Hc. unfold Client.settle. cbn [Client.result Client.element].
  destruct (create_element t a ks (Client.next_id v)) as (ks' & n' & Hcr & Hks).
  rewrite Hcr. cbn [fst Client.mdText Dom.setAttribute]. split.
  - eexists. split; [by eapply replace_parent_at|]. simpl. by rewrite Hks.
  - intros j k' Hk' Hc' Hb. by apply replace_parent_frame.
Qed.

Lemma fulfilled_render_replaces_pre_witness :
  exists newEl,
    Dom.children
      (Client.mdText
         (Client.settle
            (Client.Viewer
               (Dom.Element 0 "div" ∅
                  [Dom.Element 1 "p" ∅ [Dom.Text 2 "x"];
                   Dom.Element 3 "pre" ∅
                     [Dom.Element 4 "code" (<["class" := "language-graphviz"]> ∅)
                        [Dom.Text 5 "digraph{}"]]]) 6)
            (Client.Pending 4 (Client.Resolves (Dom.HElem "svg" ∅ [])))).1) !! 1
    = Some newEl
    /\ Dom.node_id newEl = 6
    /\ Dom.erase newEl = Dom.HElem "svg" (<["width" := "100%"]> ∅) [].
Proof.
  refine (proj1 (fulfilled_render_replaces_pre
            (Client.Viewer
               (Dom.Element 0 "div" ∅
                  [Dom.Element 1 "p" ∅ [Dom.Text 2 "x"];
                   Dom.Element 3 "pre" ∅
                     [Dom.Element 4 "code" (<["class" := "language-graphviz"]> ∅)
                        [Dom.Text 5 "digraph{}"]]]) 6)
            4 1 _ "svg" ∅ [] _ _)).
  - reflexivity.
  - vm_compute. reflexivity.
Defined.

(** X20: a render that is fulfilled for a block which is no longer on
    the page (it is no child of the root, and no node below the root
    has it as a child) leaves the page as it is. *)
Theorem late_render_leaves_page (v : Client.viewer) (block : nat) (svg : Dom.html) :
  existsb (fun g => Nat.eqb (Dom.node_id g) block) (Dom.children (Client.mdText v)) = false ->
  Page.has_parent_below block (Client.mdText v) = false ->
  Client.mdText (Client.settle v (Client.Pending block (Client.Resolves svg))).1
  = Client.mdText v.
Proof.
  intros _ Hb. unfold Client.settle. cbn [Client.result Client.element].
  destruct (Dom.create svg (Client.next_id v)) as [newEl next].
  cbn [fst Client.mdText]. by apply replace_parent_none.
Qed.

Lemma late_render_leaves_page_witness :
  Client.mdText
    (Client.settle
       (Client.Viewer (Dom.Element 0 "div" ∅ [Dom.Element 1 "p" ∅ [Dom.Text 2 "x"]]) 3)
       (Client.Pending 7 (Client.Resolves (Dom.HElem "svg" ∅ [])))).1
  = Dom.Element 0 "div" ∅ [Dom.Element 1 "p" ∅ [Dom.Text 2 "x"]].
Proof.
  apply (late_render_leaves_page
           (Client.Viewer (Dom.Element 0 "div" ∅ [Dom.Element 1 "p" ∅ [Dom.Text 2 "x"]]) 3)
           7 (Dom.HElem "svg" ∅ [])).
  - vm_compute. reflexivity.
  - vm_compute. reflexivity.
Defined.

Section RejectionProperties.
Import Dom Morphdom Html Client Page.
Variable renderSVGElement : string -> outcome.

Lemma request_without_throw (els : list node) :
  Forall (fun el => forall err, renderSVGElement (textContent el) <> Throws err) els ->
  request renderSVGElement els
  = (map (fun el => Pending (node_id el) (renderSVGElement (textContent el))) els, []).
Proof.
  induction 1 as [|el els Hel _ IH]; simpl; [done|]. rewrite IH.
  destruct (renderSVGElement (textContent el)) as [err| |] eqn:E; try done.
  by destruct (Hel err).
Qed.

Lemma settle_all_effects (ps : list pending) :
  forall v,
    (forall err, ConsoleError err ∉ (settle_all v ps).2)
    /\ (forall err, UnhandledRejection err ∈ (settle_all v ps).2
                    <-> exists p, p ∈ ps /\ result p = Rejects err).
Proof.
  induction ps as [|p ps IH]; intros v; simpl.
  - split; [intros err H; by apply elem_of_nil in H|].
    intros err. split; [intros H; by apply elem_of_nil in H|].
    intros (p & Hp & _). by apply elem_of_nil in Hp.
  - destruct (settle v p) as [v1 o1] eqn:Es.
    specialize (IH v1). destruct (settle_all v1 ps) as [v2 o2]. simpl in *.
    destruct IH as [IH1 IH2].
    assert ((forall err, ConsoleError err ∉ o1)
            /\ (forall err, UnhandledRejection err ∈ o1 <-> result p = Rejects err))
      as [H1 H2].
    { unfold settle in Es. destruct (result p) as [err0|svg|err0].
      - injection Es as _ <-. split; intros err; [by intros H%elem_of_nil|].
        split; [by intros H%elem_of_nil|done].
      - destruct (create svg (next_id v)) as [newEl next]. injection Es as _ <-.
        split; intros err.
        + intros H%list_elem_of_singleton. discriminate.
        + split; [intros H%list_elem_of_singleton; discriminate|done].
      - injection Es as _ <-. split; intros err.
        + intros H%list_elem_of_singleton. discriminate.
        + split; [intros H%list_elem_of_singleton; congruence|].
          intros [= ->]. by apply list_elem_of_singleton. }
    split; intros err.
    + intros [H|H]%elem_of_app; [by apply (H1 err)|by apply (IH1 err)].
    + rewrite elem_of_app, H2, IH2. split.
      * intros [H|(q & Hq & Hr)]; [exists p|exists q]; split; try done.
        -- by constructor.
        -- by constructor.
      * intros (q & Hq & Hr). apply elem_of_cons in Hq as [->|Hq]; [by left|].
        right. by exists q.
Qed.

End RejectionProperties.

(** X21: the [catch] block never sees a rejected render.  When no
    call of the renderer throws for a block of the reconciled page, a
    message logs nothing, however many of the promises are rejected;
    the rejections that stay unhandled are exactly those of the blocks
    whose promise is rejected. *)
Theorem rejections_are_never_logged (renderSVGElement : string -> Client.outcome)
    (v v1 : Client.viewer) (text : string) (e : list Morphdom.effect) :
  Client.reconcile v text = Some (v1, e) ->
  Forall (fun el => forall err, renderSVGElement (Dom.textContent el) <> Client.Throws err)
         (Client.getElementsByClassName "language-graphviz" (Client.mdText v1)) ->
  exists v2 o,
    Client.onmessage renderSVGElement v text = Some (v2, e, o)
    /\ (forall err, Client.ConsoleError err ∉ o)
    /\ (forall err,
          Client.UnhandledRejection err ∈ o
          <-> exists el,
                el ∈ Client.getElementsByClassName "language-graphviz" (Client.mdText v1)
                /\ renderSVGElement (Dom.textContent el) = Client.Rejects err).
Proof.
  intros Hr Hno. unfold Client.onmessage, Client.upgrade. rewrite Hr.
  rewrite (request_without_throw _ _ Hno).
  set (ps := map _ _).
  destruct (settle_all_effects ps v1) as [H1 H2].
  destruct (Client.settle_all v1 ps) as [v2 o2]. simpl in *.
  exists v2, o2. split; [done|]. split; [done|]. intros err. rewrite H2. split.
  - intros (p & Hp & Hres). subst ps. apply list_elem_of_fmap in Hp as (el & -> & Hel).
    by exists el.
  - intros (el & Hel & Hres).
    exists (Client.Pending (Dom.node_id el) (renderSVGElement (Dom.textContent el))).
    split; [|exact Hres]. subst ps. apply list_elem_of_fmap. by exists el.
Qed.

Lemma rejections_are_never_logged_witness :
  exists v2 o,
    Client.onmessage Client.render_sample Client.viewer0
      "<pre><code class='language-graphviz'>bad</code></pre>"
    = Some (v2,
            [Morphdom.RemoveChild 0 1;
             Morphdom.AppendChild 0 3; Morphdom.ScrollIntoView 3;
             Morphdom.ScrollIntoView 4; Morphdom.AppendChild 0 6;
             Morphdom.ScrollIntoView 6],
            o)
    /\ (forall err, Client.ConsoleError err ∉ o).
Proof.
  destruct (rejections_are_never_logged Client.render_sample Client.viewer0
              (Client.Viewer
                 (Dom.Element 0 "div"
                    (<["id" := "mdText"]> (<["class" := "markdown-body"]> ∅))
                    [Dom.Element 3 "pre" ∅
                       [Dom.Element 4 "code" (<["class" := "language-graphviz"]> ∅)
                          [Dom.Text 5 "bad"]];
                     Dom.Element 6 "div" ∅ []]) 8)
              "<pre><code class='language-graphviz'>bad</code></pre>"
              [Morphdom.RemoveChild 0 1;
               Morphdom.AppendChild 0 3; Morphdom.ScrollIntoView 3;
               Morphdom.ScrollIntoView 4; Morphdom.AppendChild 0 6;
               Morphdom.ScrollIntoView 6])
    as (v2 & o & H1 & H2 & _).
  - vm_compute. reflexivity.
  - constructor; [|constructor]. intros err. vm_compute. discriminate.
  - exists v2, o. split; [exact H1|exact H2].
Defined.

Section FocusInvariant.
Import Server.
Variable md_render : string -> string.

(** What one event does to the focus and to the documents. *)
Lemma listen_focus_documents (st : server) (e : event) :
  let st1 := (listen md_render st e).1 in
  match e with
  | DidOpen u t => currentFocus st1 = u /\ documents st1 = <[u := t]> (documents st)
  | DidChange u t =>
      match documents st !! u with
      | Some _ => currentFocus st1 = u /\ documents st1 = <[u := t]> (documents st)
      | None => st1 = st
      end
  | DidClose u =>
      currentFocus st1 = currentFocus st /\ documents st1 = delete u (documents st)
  | _ => currentFocus st1 = currentFocus st /\ documents st1 = documents st
  end.
Proof.
  destruct e as [u t|u t|u|c|c data|c]; simpl; try done.
  - by destruct (documents st !! u) eqn:Hu.
  - destruct (documents st !! u) eqn:Hu; simpl; [done|].
    split; [done|]. by rewrite delete_id.
  - unfold on_connection. simpl. by destruct (render_call _ _).
Qed.

Lemma run_focus_documents (es : list event) :
  forall st,
    let st1 := (run md_render st es).1 in
    (currentFocus st1 = currentFocus st
     \/ is_Some (documents st !! currentFocus st1)
     \/ exists t, In (DidOpen (currentFocus st1) t) es)
    /\ (forall u, is_Some (documents st1 !! u) ->
                  is_Some (documents st !! u) \/ exists t, In (DidOpen u t) es).
Proof.
  induction es as [|e es IH]; intros st; simpl; [by split; [left|left]|].
  pose proof (listen_focus_documents st e) as He.
  destruct (listen md_render st e) as [st1 o] eqn:El.
  specialize (IH st1). destruct (run md_render st1 es) as [st2 os]. simpl in *.
  destruct IH as [IHf IHd].
  assert ((currentFocus st1 = currentFocus st
           \/ is_Some (documents st !! currentFocus st1)
           \/ exists t, DidOpen (currentFocus st1) t = e)
          /\ (forall u, is_Some (documents st1 !! u) ->
                        is_Some (documents st !! u) \/ exists t, DidOpen u t = e))
    as [Hf Hd].
  { destruct e as [u t|u t|u|c|c data|c].
    - destruct He as [-> ->]. split; [right; right; by exists t|].
      intros u'. destruct (decide (u = u')) as [->|Hne].
      + intros _. right. by exists t.
      + rewrite lookup_insert_ne by done. by left.
    - destruct (documents st !! u) eqn:Hu.
      + destruct He as [-> ->]. split; [right; left; by rewrite Hu|].
        intros u'. destruct (decide (u = u')) as [->|Hne].
        * intros _. left. by rewrite Hu.
        * rewrite lookup_insert_ne by done. by left.
      + subst st1. split; [by left|]. intros u' H. by left.
    - destruct He as [-> ->]. split; [by left|]. intros u'.
      destruct (decide (u = u')) as [->|Hne].
      + rewrite lookup_delete_eq. by intros [? [=]].
      + rewrite lookup_delete_ne by done. by left.
    - destruct He as [-> ->]. split; [by left|]. intros u' H. by left.
    - destruct He as [-> ->]. split; [by left|]. intros u' H. by left.
    - destruct He as [-> ->]. split; [by left|]. intros u' H. by left. }
  assert (forall u, is_Some (documents st1 !! u) ->
                    is_Some (documents st !! u) \/ exists t, e = DidOpen u t \/ In (DidOpen u t) es)
    as Hd'.
  { intros u H. destruct (Hd u H) as [?|[t <-]]; [by left|]. right. exists t. by left. }
  split.
  - destruct IHf as [->|[H|(t & Ht)]].
    + destruct Hf as [->|[H|(t & <-)]]; [by left|right; by left|].
      right. right. exists t. by left.
    + destruct (Hd' _ H) as [?|?]; [right; by left|by right; right].
    + right. right. exists t. by right.
  - intros u H. destruct (IHd u H) as [H1|(t & Ht)].
    + by apply Hd'.
    + right. exists t. by right.
Qed.

End FocusInvariant.

(** X22: from the start of the server on, whatever events arrive, the
    focus is either still the empty string or the URI of a document
    that was opened at some time, and every document that the manager
    holds was opened at some time. *)
Theorem focus_was_opened (md_render : string -> string) (es : list Server.event) :
  let st := (Server.run md_render Server.initial es).1 in
  (Server.currentFocus st = EmptyString
   \/ exists t, In (Server.DidOpen (Server.currentFocus st) t) es)
  /\ (forall u, is_Some (Server.documents st !! u) ->
                exists t, In (Server.DidOpen u t) es).
Proof.
  destruct (run_focus_documents md_render es Server.initial) as [Hf Hd]. split.
  - destruct Hf as [?|[H|?]]; [by left| |by right].
    simpl in H. rewrite lookup_empty in H. by destruct H.
  - intros u H. destruct (Hd u H) as [H'|?]; [|done].
    simpl in H'. rewrite lookup_empty in H'. by destruct H'.
Qed.
